(** * ExpiringMap: a map whose entries expire after a per-entry duration

    Shallow embedding of [pj4dev::ExpiringMap<K, V>] (src/ExpiringMap.h).

    - [std::map<K, std::shared_ptr<Item>>] is a finite map from keys to item
      references; the items themselves live in a store of allocated objects,
      and an item is destroyed when the map drops its (only lasting) owning
      reference.
    - [std::weak_ptr<Item>] is an item reference that may outlive its item:
      [lock] looks the reference up in the store of allocated objects.
    - [std::priority_queue] is the binary heap of [<algorithm>] laid out in a
      vector ([std::push_heap], [std::pop_heap]), written as in libstdc++.
    - [long] is a 64-bit signed integer and [unsigned] a 32-bit one (LP64).
    - The system clock is the sequence of its readings.
    - Dereferencing an empty pointer and signed overflow have no defined
      behaviour: they are the outcome [Undefined].  The loops run on fuel;
      [OutOfFuel] is shown never to be the outcome of an operation. *)

From Stdlib Require OrdersEx.
From stdpp Require Import base option numbers list sorting gmap strings.

Open Scope Z_scope.

(** ** Outcomes of a run *)

Inductive result (A : Type) : Type :=
  | Ok (a : A)
  | Undefined
  | OutOfFuel.
Arguments Ok {A} a.
Arguments Undefined {A}.
Arguments OutOfFuel {A}.

#[global] Instance result_ret : MRet result := fun A a => Ok a.
#[global] Instance result_bind : MBind result := fun A B f r =>
  match r with
  | Ok a => f a
  | Undefined => Undefined
  | OutOfFuel => OutOfFuel
  end.

Definition is_Ok {A} (r : result A) : Prop := exists a, r = Ok a.

(** Reading a vector element; the index is always in range in the callers,
    out of range is undefined. *)
Definition at_index {A} (v : list A) (i : nat) : result A :=
  match v !! i with
  | Some x => Ok x
  | None => Undefined
  end.

(** ** The heap algorithms behind [std::priority_queue] *)

Section heap.
Context {A : Type}.
Variable comp : A -> A -> result bool.

(** [std::__push_heap(first, holeIndex, topIndex, value, comp)]:
    the loop [while (holeIndex > topIndex && comp(first + parent, value))]. *)
Fixpoint push_heap_loop (fuel : nat) (first : list A)
    (holeIndex topIndex : nat) (value : A) : result (list A) :=
  match fuel with
  | O => OutOfFuel
  | S fuel' =>
      let parent := ((holeIndex - 1) / 2)%nat in
      if decide (topIndex < holeIndex)%nat then
        p ← at_index first parent;
        c ← comp p value;
        if (c : bool) then
          push_heap_loop fuel' (<[holeIndex := p]> first) parent topIndex value
        else Ok (<[holeIndex := value]> first)
      else Ok (<[holeIndex := value]> first)
  end.

Definition __push_heap (first : list A) (holeIndex topIndex : nat)
    (value : A) : result (list A) :=
  push_heap_loop (S holeIndex) first holeIndex topIndex value.

(** [std::push_heap(first, last, comp)]: the last element is the new one. *)
Definition push_heap (v : list A) : result (list A) :=
  value ← at_index v (length v - 1);
  __push_heap v (length v - 1) 0 value.

(** [std::__adjust_heap(first, holeIndex, len, value, comp)]: the first
    loop moves the hole down to a leaf along the preferred children.
    [pop_heap] calls it with [1 <= len], where the truncated subtractions of
    [nat] agree with the signed arithmetic of the library. *)
Fixpoint adjust_heap_loop (fuel : nat) (first : list A)
    (holeIndex secondChild len : nat) : result (list A * nat * nat) :=
  match fuel with
  | O => OutOfFuel
  | S fuel' =>
      if decide (secondChild < (len - 1) / 2)%nat then
        let secondChild := (2 * (secondChild + 1))%nat in
        a ← at_index first secondChild;
        b ← at_index first (secondChild - 1);
        c ← comp a b;
        let secondChild := if (c : bool) then (secondChild - 1)%nat
                           else secondChild in
        x ← at_index first secondChild;
        adjust_heap_loop fuel' (<[holeIndex := x]> first)
          secondChild secondChild len
      else Ok (first, holeIndex, secondChild)
  end.

Definition __adjust_heap (first : list A) (holeIndex len : nat)
    (value : A) : result (list A) :=
  let topIndex := holeIndex in
  '(first, holeIndex, secondChild) ←
      adjust_heap_loop (S len) first holeIndex holeIndex len;
  '(first, holeIndex) ←
      (if decide (Nat.land len 1 = 0%nat /\ secondChild = ((len - 2) / 2)%nat)
       then
         let secondChild := (2 * (secondChild + 1))%nat in
         x ← at_index first (secondChild - 1);
         Ok (<[holeIndex := x]> first, (secondChild - 1)%nat)
       else Ok (first, holeIndex));
  __push_heap first holeIndex topIndex value.

(** [std::pop_heap(first, last, comp)]: the top goes to the last place. *)
Definition pop_heap (v : list A) : result (list A) :=
  if decide (1 < length v)%nat then
    let last := (length v - 1)%nat in
    value ← at_index v last;
    top ← at_index v 0;
    __adjust_heap (<[last := top]> v) 0 last value
  else Ok v.

(** [priority_queue::push], [priority_queue::pop], [priority_queue::top]
    and [priority_queue::empty]. *)
Definition pq_push (c : list A) (x : A) : result (list A) :=
  push_heap (c ++ [x]).

Definition pq_pop (c : list A) : result (list A) :=
  match c with
  | [] => Undefined
  | _ => c' ← pop_heap c; Ok (removelast c')
  end.

Definition pq_top (c : list A) : result A := at_index c 0.

Definition pq_empty (c : list A) : bool :=
  match c with [] => true | _ => false end.
End heap.

(** What a min-heap on the first [n] places of a vector is: no element
    comes before its parent, in the order of a priority [prio]. *)
Section heap_order.
Context {A : Type}.
Variable prio : A -> Z.

Definition prio_at (v : list A) (j : nat) : Z := from_option prio 0 (v !! j).

Definition heap_ordered (n : nat) (v : list A) : Prop :=
  forall j, (0 < j < n)%nat -> prio_at v ((j - 1) / 2) <= prio_at v j.

(** The same with a hole: the pairs that the place [hole] is not part of. *)
Definition ordered_but (hole n : nat) (v : list A) : Prop :=
  forall j, (0 < j < n)%nat -> j ≠ hole -> ((j - 1) / 2)%nat ≠ hole ->
    prio_at v ((j - 1) / 2) <= prio_at v j.

(** The places next to the hole: its parent is no later than its children. *)
Definition bridged (hole n : nat) (v : list A) : Prop :=
  forall j, (0 < j < n)%nat -> ((j - 1) / 2)%nat = hole -> (0 < hole)%nat ->
    prio_at v ((hole - 1) / 2) <= prio_at v j.
End heap_order.

(** ** Machine integers *)

Definition LONG_MIN : Z := - 2 ^ 63.
Definition LONG_MAX : Z := 2 ^ 63 - 1.
Definition in_long (z : Z) : Prop := LONG_MIN <= z <= LONG_MAX.

#[global] Instance in_long_dec z : Decision (in_long z).
Proof. unfold in_long. apply _. Defined.

(** [long + long] and [long - long]: overflow is undefined. *)
Definition long_add (a b : Z) : result Z :=
  if decide (in_long (a + b)) then Ok (a + b) else Undefined.
Definition long_sub (a b : Z) : result Z :=
  if decide (in_long (a - b)) then Ok (a - b) else Undefined.

(** Conversion of a [long] to [unsigned]: reduction modulo 2^32. *)
Definition to_unsigned (z : Z) : Z := z mod 2 ^ 32.

(** ** Monadic list helpers for [std::for_each] and [std::sort] *)

Section sorting.
Context {A : Type}.
Variable comp : A -> A -> result bool.

Fixpoint sort_insert (x : A) (l : list A) : result (list A) :=
  match l with
  | [] => Ok [x]
  | y :: l' =>
      c ← comp x y;
      if (c : bool) then Ok (x :: y :: l')
      else (r ← sort_insert x l'; Ok (y :: r))
  end.

(** [std::sort(first, last, comp)].  With a comparator that is a strict
    total order on the elements the sorted arrangement is unique, so an
    insertion sort stands for the library's algorithm. *)
Fixpoint std_sort (l : list A) : result (list A) :=
  match l with
  | [] => Ok []
  | x :: l' => r ← std_sort l'; sort_insert x r
  end.
End sorting.

(** ** The container *)

(** Identity of an allocated [Item]; identities are never reused, as a
    [weak_ptr] never observes a later allocation. *)
Definition ptr := nat.

Section ExpiringMap.
Context {K : Type} `{Countable K} {V : Type}.
(** [operator<] of the key type and [V{}]. *)
Variable K_lt : K -> K -> bool.
Variable V_default : V.
(** [clock n] is what the [n]-th call of [current_time()] returns. *)
Variable clock : nat -> Z.

Record Item : Type := mkItem { key_ : K; value_ : V; expire_ : Z }.

(** [expired_queue_] and [internal_map_] are the two members of the class;
    [items] holds the [Item] objects that are alive, [next_item] is the
    allocator's counter and [clock_reads] counts the clock readings. *)
Record State : Type := mkState {
  expired_queue_ : list ptr;
  internal_map_ : gmap K ptr;
  items : gmap ptr Item;
  next_item : ptr;
  clock_reads : nat
}.

Definition set_queue (q : list ptr) (s : State) : State :=
  mkState q (internal_map_ s) (items s) (next_item s) (clock_reads s).

Definition empty_map : State := mkState [] ∅ ∅ 0%nat 0%nat.

(** [weak_ptr::lock()]: the item, or nothing when it was destroyed. *)
Definition lock (s : State) (w : ptr) : option Item := items s !! w.

(** [operator->] on the pointer that [lock()] returns, and on a
    [shared_ptr] held by the map. *)
Definition deref (s : State) (p : ptr) : result Item :=
  match items s !! p with
  | Some it => Ok it
  | None => Undefined
  end.

(** [ItemCompare::operator()]. *)
Definition ItemCompare (s : State) (lhs rhs : ptr) : result bool :=
  l ← deref s lhs;
  r ← deref s rhs;
  Ok (bool_decide (expire_ l > expire_ r)).

(** [current_time()]. *)
Definition current_time (s : State) : Z * State :=
  (clock (clock_reads s),
   mkState (expired_queue_ s) (internal_map_ s) (items s) (next_item s)
     (S (clock_reads s))).

(** [internal_map_.erase(key)]: the map drops its owning reference and the
    item is destroyed. *)
Definition map_erase (key : K) (s : State) : State :=
  match internal_map_ s !! key with
  | Some p =>
      mkState (expired_queue_ s) (delete key (internal_map_ s))
        (delete p (items s)) (next_item s) (clock_reads s)
  | None => s
  end.

(** [std::make_shared<Item>(key, value, expired_time)].  The local [item]
    of [put] owns the new item until [put] returns; by then the horizon has no
    reference to an item that [clearExpired] erased, so the item leaves the
    store of objects when the map lets go of it. *)
Definition make_shared (it : Item) (s : State) : ptr * State :=
  (next_item s,
   mkState (expired_queue_ s) (internal_map_ s)
     (<[next_item s := it]> (items s)) (S (next_item s)) (clock_reads s)).

(** [internal_map_.emplace(key, item)] on a map without [key]. *)
Definition map_emplace (key : K) (p : ptr) (s : State) : State :=
  mkState (expired_queue_ s) (<[key := p]> (internal_map_ s))
    (items s) (next_item s) (clock_reads s).

(** One turn of the loop of [clearExpired]: the test of the loop condition
    and, where it holds, the body.  [Stop] is the exit, by the condition or
    by [break]; [Continue] goes round again.  The pointer [top] keeps the
    item it locked until the end of the [if], so the item erased from the map
    is destroyed before [pop] runs. *)
Inductive turn : Type :=
  | Stop (s : State)
  | Continue (s : State).

Definition clearExpired_step (s : State) : result turn :=
  if pq_empty (expired_queue_ s) then Ok (Stop s)
  else
    w ← pq_top (expired_queue_ s);
    match lock s w with
    | Some top =>
        let '(now, s) := current_time s in
        if bool_decide (expire_ top > now) then Ok (Stop s)
        else
          let s := map_erase (key_ top) s in
          q ← pq_pop (ItemCompare s) (expired_queue_ s);
          Ok (Continue (set_queue q s))
    | None =>
        q ← pq_pop (ItemCompare s) (expired_queue_ s);
        Ok (Continue (set_queue q s))
    end.

Fixpoint clearExpired_loop (fuel : nat) (s : State) : result State :=
  match fuel with
  | O => OutOfFuel
  | S fuel' =>
      t ← clearExpired_step s;
      match t with
      | Stop s' => Ok s'
      | Continue s' => clearExpired_loop fuel' s'
      end
  end.

Definition clearExpired (s : State) : result State :=
  clearExpired_loop (S (length (expired_queue_ s))) s.

(** The same loop, counting how often its body is entered. *)
Fixpoint clearExpired_turns (fuel : nat) (s : State) : nat * result State :=
  match fuel with
  | O => (0%nat, OutOfFuel)
  | S fuel' =>
      if pq_empty (expired_queue_ s) then (0%nat, Ok s)
      else
        match clearExpired_step s with
        | Ok (Stop s') => (1%nat, Ok s')
        | Ok (Continue s') =>
            let '(n, r) := clearExpired_turns fuel' s' in (S n, r)
        | Undefined => (1%nat, Undefined)
        | OutOfFuel => (1%nat, OutOfFuel)
        end
  end.

Definition put (key : K) (value : V) (ms : Z) (s : State) : result State :=
  let '(now, s) := current_time s in
  expired_time ← long_add now ms;
  let '(item, s) := make_shared (mkItem key value expired_time) s in
  let s := map_erase key s in
  let s := map_emplace key item s in
  q ← pq_push (ItemCompare s) (expired_queue_ s) item;
  clearExpired (set_queue q s).

Definition get (key : K) (s : State) : result (V * State) :=
  match internal_map_ s !! key with
  | Some p =>
      it ← deref s p;
      let '(now, s) := current_time s in
      Ok (if bool_decide (expire_ it > now) then value_ it else V_default, s)
  | None => Ok (V_default, s)
  end.

(** The body of the [std::for_each] of [keys]. *)
Fixpoint live_keys (s : State) (curtime : Z) (l : list (K * ptr))
    : result (list K) :=
  match l with
  | [] => Ok []
  | (k, p) :: l' =>
      it ← deref s p;
      rest ← live_keys s curtime l';
      Ok (if bool_decide (expire_ it > curtime) then k :: rest else rest)
  end.

(** [internal_map_[a]->getExpire()]; on a missing key [operator[]] makes an
    empty pointer, whose dereference is undefined. *)
Definition expire_of (s : State) (a : K) : result Z :=
  match internal_map_ s !! a with
  | Some p => it ← deref s p; Ok (expire_ it)
  | None => Undefined
  end.

(** The comparator given to [std::sort] in [keys]. *)
Definition keys_compare (s : State) (a b : K) : result bool :=
  ea ← expire_of s a;
  eb ← expire_of s b;
  Ok (if bool_decide (ea ≠ eb) then bool_decide (ea < eb) else K_lt a b).

(** [keys].  [std::for_each] walks the map in key order and [map_to_list]
    in an order of its own; the [std::sort] that follows makes the result
    the same. *)
Definition keys (s : State) : result (list K * State) :=
  let '(curtime, s) := current_time s in
  ks ← live_keys s curtime (map_to_list (internal_map_ s));
  ks ← std_sort (keys_compare s) ks;
  Ok (ks, s).

(** [left]: the local is declared with [0U], so it is an [unsigned]. *)
Definition left (key : K) (s : State) : result (Z * State) :=
  match internal_map_ s !! key with
  | Some p =>
      it ← deref s p;
      let '(now, s) := current_time s in
      d ← long_sub (expire_ it) now;
      Ok (to_unsigned d, s)
  | None => Ok (to_unsigned 0, s)
  end.

Definition erase (key : K) (s : State) : State := map_erase key s.

(** The loop of [clear]: [while (!expired_queue_.empty()) pop()]. *)
Fixpoint clear_loop (fuel : nat) (s : State) : result State :=
  match fuel with
  | O => OutOfFuel
  | S fuel' =>
      if pq_empty (expired_queue_ s) then Ok s
      else
        q ← pq_pop (ItemCompare s) (expired_queue_ s);
        clear_loop fuel' (set_queue q s)
  end.

Definition clear (s : State) : result State :=
  s ← clear_loop (S (length (expired_queue_ s))) s;
  Ok (mkState (expired_queue_ s) ∅ ∅ (next_item s) (clock_reads s)).

Definition size (s : State) : result (nat * State) :=
  s ← clearExpired s;
  Ok (base.size (internal_map_ s), s).

(** The state a turn of [clearExpired] ends in. *)
Definition turn_state (t : turn) : State :=
  match t with Stop s | Continue s => s end.

(** The state of [put] between [emplace] and [push]. *)
Definition inserted (key : K) (value : V) (expired_time : Z) (s : State)
    : State :=
  let '(_, s) := current_time s in
  let '(item, s) := make_shared (mkItem key value expired_time) s in
  map_emplace key item (map_erase key s).

(** The public operations, and the state each one leaves. *)
Inductive op : Type :=
  | Put (key : K) (value : V) (ms : Z)
  | Get (key : K)
  | Keys
  | Left (key : K)
  | Erase (key : K)
  | Clear
  | Size.

Definition run (o : op) (s : State) : result State :=
  match o with
  | Put key value ms => put key value ms s
  | Get key => r ← get key s; Ok r.2
  | Keys => r ← keys s; Ok r.2
  | Left key => r ← left key s; Ok r.2
  | Erase key => Ok (erase key s)
  | Clear => clear s
  | Size => r ← size s; Ok r.2
  end.

(** The states a container can be in: what the operations make of the
    empty container. *)
Inductive reachable : State -> Prop :=
  | reachable_empty : reachable empty_map
  | reachable_run o s s' : reachable s -> run o s = Ok s' -> reachable s'.

(** *** Well-formed containers

    What the ownership discipline of [shared_ptr] gives by construction:
    the map's references point to items that are alive and filed under their
    own key, an item is alive only while the map owns it, and no reference,
    owning or not, is ahead of the allocator. *)
Record wf (s : State) : Prop := mkWf {
  wf_owned : forall k p, internal_map_ s !! k = Some p ->
    exists it, items s !! p = Some it /\ key_ it = k;
  wf_alive : forall p it, items s !! p = Some it ->
    internal_map_ s !! key_ it = Some p;
  wf_items_fresh : forall p, is_Some (items s !! p) -> (p < next_item s)%nat;
  wf_queue_fresh : forall p, p ∈ expired_queue_ s -> (p < next_item s)%nat
}.

(** Every entry of the store has a reference in the horizon. *)
Definition horizon_covers (s : State) : Prop :=
  forall k p, internal_map_ s !! k = Some p -> p ∈ expired_queue_ s.

(** A horizon that holds each of its references once, none of them
    stale: what [put] on new keys and [size] leave, and what [erase] and an
    overwriting [put] break. *)
Definition tidy (s : State) : Prop :=
  NoDup (expired_queue_ s) /\
  forall p, p ∈ expired_queue_ s -> is_Some (lock s p).

(** The expiration time behind a reference, and a horizon that is a heap
    in the order of these times. *)
Definition expire_at (s : State) (p : ptr) : Z :=
  from_option expire_ 0 (lock s p).

Definition horizon_sorted (s : State) : Prop :=
  heap_ordered (expire_at s) (length (expired_queue_ s)) (expired_queue_ s).

(** A container in order: well-formed, with a tidy horizon that covers the
    store and is a heap. *)
Definition orderly (s : State) : Prop :=
  wf s /\ horizon_covers s /\ tidy s /\ horizon_sorted s.

(** The entry of [key] in the store, if any. *)
Definition entry (s : State) (key : K) : option Item :=
  p ← internal_map_ s !! key; items s !! p.

(** The order [keys] announces: sooner expiry first, then smaller key. *)
Definition key_before (s : State) (a b : K) : Prop :=
  exists ia ib, entry s a = Some ia /\ entry s b = Some ib /\
    (expire_ ia < expire_ ib \/
     (expire_ ia = expire_ ib /\ K_lt a b = true)).

Definition key_before_b (s : State) (a b : K) : bool :=
  match entry s a, entry s b with
  | Some ia, Some ib =>
      if bool_decide (expire_ ia ≠ expire_ ib)
      then bool_decide (expire_ ia < expire_ ib)
      else K_lt a b
  | _, _ => false
  end.

End ExpiringMap.

(** ** The container of the test program

    [typedef pj4dev::ExpiringMap<std::string, int> ExpMap;] with the
    lexicographic [operator<] of [std::string], and clocks to run it on. *)

Definition ExpMap : Type := @State string _ _ Z.

Definition str_lt (a b : string) : bool :=
  if OrdersEx.String_as_OT.compare a b is Lt then true else false.

(** A clock that stands still, and one that reads [0] for its first [n]
    readings and [t] from then on. *)
Definition steady (now : Z) : nat -> Z := fun _ => now.
Definition later (n : nat) (t : Z) : nat -> Z :=
  fun i => if decide (i < n)%nat then 0 else t.

(** The state a run ends in (the empty container if it did not end well). *)
Definition state_of (r : result ExpMap) : ExpMap :=
  match r with Ok s => s | _ => empty_map end.

(** [put("hello", 1, 100)], as the clock will read 150 afterwards. *)
Definition hello_run : result ExpMap :=
  put (later 2 150) "hello"%string 1 100 empty_map.
Definition hello : ExpMap := state_of hello_run.

(** The first two [put]s of the test program. *)
Definition hello_world_run : result ExpMap :=
  s ← put (steady 0) "hello"%string 1 500 empty_map;
  put (steady 0) "world"%string 2 100 s.
Definition hello_world : ExpMap := state_of hello_world_run.

(** Its third [put] overwrites ["world"] while the reference to the old
    entry is in the horizon. *)
Definition test_program_run : result ExpMap :=
  s ← hello_world_run; put (steady 0) "world"%string 2 3000 s.

(** The second scenario of the specification: [put("x", 10, 1000)], then
    [put("x", 20, 1000)] before expiry. *)
Definition overwrite_run : result ExpMap :=
  s ← put (steady 0) "x"%string 10 1000 empty_map;
  put (steady 0) "x"%string 20 1000 s.

(** An overwrite next to an entry that expires sooner than both. *)
Definition beside_run : result ExpMap :=
  put (steady 0) "a"%string 1 1000 empty_map.
Definition beside : ExpMap := state_of beside_run.
Definition beside_first : ExpMap :=
  state_of (put (steady 0) "x"%string 10 2000 beside).
Definition beside_second : ExpMap :=
  state_of (put (steady 0) "x"%string 20 3000 beside_first).

(** Three entries, the middle one erased, and the first one due when the
    clock is read again. *)
Definition erased_run : result ExpMap :=
  s ← put (later 6 150) "a"%string 1 100 empty_map;
  s ← put (later 6 150) "b"%string 2 200 s;
  s ← put (later 6 150) "c"%string 3 300 s;
  Ok (erase "b"%string s).
Definition erased : ExpMap := state_of erased_run.

(** * Properties *)

Set Default Proof Using "Type".

#[local] Arguments pq_pop : simpl never.
#[local] Arguments pq_push : simpl never.
#[local] Arguments inserted : simpl never.
#[local] Arguments Nat.div : simpl never.
#[local] Arguments Nat.mul : simpl never.
#[local] Arguments Nat.sub : simpl never.
#[local] Arguments Nat.land : simpl never.
#[local] Arguments Z.pow : simpl never.
#[local] Arguments Z.modulo : simpl never.

(** ** The outcome monad *)

Lemma bind_Ok {A B} (r : result A) (f : A -> result B) (b : B) :
  r ≫= f = Ok b <-> exists a, r = Ok a /\ f a = Ok b.
Proof.
  destruct r; simpl; split; try (intros (a' & Ha & Hb)); try discriminate; eauto.
  by inversion Ha; subst.
Qed.

Lemma bind_Ok_l {A B} (a : A) (f : A -> result B) : Ok a ≫= f = f a.
Proof. done. Qed.

Lemma bind_fuel {A B} (r : result A) (f : A -> result B) :
  r ≠ OutOfFuel -> (forall a, r = Ok a -> f a ≠ OutOfFuel) -> r ≫= f ≠ OutOfFuel.
Proof. destruct r; simpl; intros; auto; discriminate. Qed.

Lemma at_index_Ok {A} (v : list A) i x : at_index v i = Ok x <-> v !! i = Some x.
Proof. unfold at_index. destruct (v !! i); split; congruence. Qed.

Lemma lookup_removelast {A} (l : list A) j :
  (j < length l - 1)%nat -> removelast l !! j = l !! j.
Proof.
  revert j. induction l as [|x l IH]; intros j Hj; [done|].
  destruct l as [|y l]; [simpl in Hj; lia|].
  destruct j as [|j]; [done|].
  change (removelast (y :: l) !! j = (y :: l) !! j). apply IH. simpl in *. lia.
Qed.

Lemma at_index_fuel {A} (v : list A) i : at_index v i ≠ OutOfFuel.
Proof. unfold at_index. destruct (v !! i); discriminate. Qed.

(** ** The heap algorithms: no element is lost, none is made up *)

Section heap_facts.
Context {A : Type}.
Variable comp : A -> A -> result bool.

Lemma push_heap_loop_perm fuel : forall (first : list A) hole top value r,
  (hole < length first)%nat ->
  push_heap_loop comp fuel first hole top value = Ok r ->
  r ≡ₚ <[hole := value]> first /\
  (forall j, (hole < j)%nat -> r !! j = first !! j).
Proof.
  induction fuel as [|fuel IH]; intros first hole top value r Hlen Hr; [done|].
  simpl in Hr. case_decide as Hcmp.
  - apply bind_Ok in Hr as (p & Hp%at_index_Ok & Hr).
    apply bind_Ok in Hr as (c & Hc & Hr).
    assert ((hole - 1) / 2 < hole)%nat as Hpar.
    { apply Nat.Div0.div_lt_upper_bound; lia. }
    destruct c.
    + apply IH in Hr as [Hperm Hfix]; [|rewrite length_insert; lia].
      split.
      * rewrite Hperm.
        rewrite <-(list_insert_insert_eq first hole p value).
        apply Permutation_insert_swap.
        -- apply list_lookup_insert_eq; lia.
        -- rewrite list_lookup_insert_ne by lia. done.
      * intros j Hj. rewrite Hfix by lia.
        apply list_lookup_insert_ne; lia.
    + inversion Hr; subst. split; [done|].
      intros j Hj. apply list_lookup_insert_ne; lia.
  - inversion Hr; subst. split; [done|].
    intros j Hj. apply list_lookup_insert_ne; lia.
Qed.

Lemma push_heap_loop_fuel fuel : forall (first : list A) hole top value,
  (forall x y, comp x y ≠ OutOfFuel) ->
  (hole < fuel)%nat ->
  push_heap_loop comp fuel first hole top value ≠ OutOfFuel.
Proof.
  induction fuel as [|fuel IH]; intros first hole top value Hcomp Hfuel; [lia|].
  simpl. case_decide as Hcmp; [|done].
  apply bind_fuel; [apply at_index_fuel|]. intros p _.
  apply bind_fuel; [apply Hcomp|]. intros [] _; [|done].
  apply IH; [done|].
  assert ((hole - 1) / 2 < hole)%nat; [|lia].
  apply Nat.Div0.div_lt_upper_bound; lia.
Qed.

Lemma half_bound (sc len : nat) :
  (sc < (len - 1) / 2)%nat -> (2 * (sc + 1) <= len - 1)%nat.
Proof. intros. pose proof (Nat.Div0.mul_div_le (len - 1) 2). lia. Qed.

Lemma even_last_child (len : nat) :
  Nat.land len 1 = 0%nat -> (2 <= len)%nat ->
  (2 * ((len - 2) / 2 + 1))%nat = len.
Proof.
  intros Heven Hlen. change 1%nat with (Nat.ones 1) in Heven at 1.
  rewrite Nat.land_ones in Heven. change (2 ^ 1)%nat with 2%nat in Heven.
  pose proof (Nat.div_mod_eq (len - 2) 2) as Hdm.
  replace len with ((len - 2) + 1 * 2)%nat in Heven by lia.
  rewrite Nat.Div0.mod_add in Heven. lia.
Qed.

Lemma adjust_heap_loop_perm fuel : forall (first : list A) hole sc len r,
  (hole <= sc < len)%nat -> (len <= length first)%nat ->
  adjust_heap_loop comp fuel first hole sc len = Ok r ->
  (forall x, <[r.1.2 := x]> r.1.1 ≡ₚ <[hole := x]> first) /\
  (r.1.2 <= r.2 < len)%nat /\
  length r.1.1 = length first /\
  (forall j, (len <= j)%nat -> r.1.1 !! j = first !! j).
Proof.
  induction fuel as [|fuel IH]; intros first hole sc len r Hsc Hlen Hr; [done|].
  simpl in Hr. case_decide as Hcmp.
  - apply half_bound in Hcmp.
    apply bind_Ok in Hr as (a & Ha & Hr).
    apply bind_Ok in Hr as (b & Hb & Hr).
    apply bind_Ok in Hr as (c & Hc & Hr).
    apply bind_Ok in Hr as (x & Hx%at_index_Ok & Hr).
    set (sc2 := if c then (2 * (sc + 1) - 1)%nat else (2 * (sc + 1))%nat) in *.
    assert (sc < sc2 < len)%nat as Hsc2 by (destruct c; simpl in sc2; lia).
    apply IH in Hr as (Hperm & Hbound & Hlength & Hfix);
      [|lia|rewrite length_insert; lia].
    rewrite length_insert in Hlength.
    split; [|split; [done|split; [done|]]].
    + intros y. rewrite Hperm.
      rewrite <-(list_insert_insert_eq first hole x y).
      apply Permutation_insert_swap.
      * apply list_lookup_insert_eq; lia.
      * rewrite list_lookup_insert_ne by lia. done.
    + intros j Hj. rewrite Hfix by done. apply list_lookup_insert_ne; lia.
  - inversion Hr; subst; simpl. split_and!; auto; lia.
Qed.

Lemma adjust_heap_loop_fuel fuel : forall (first : list A) hole sc len,
  (forall x y, comp x y ≠ OutOfFuel) ->
  (len - sc < fuel)%nat ->
  adjust_heap_loop comp fuel first hole sc len ≠ OutOfFuel.
Proof.
  induction fuel as [|fuel IH]; intros first hole sc len Hcomp Hfuel; [lia|].
  simpl. case_decide as Hcmp; [|done].
  apply half_bound in Hcmp.
  apply bind_fuel; [apply at_index_fuel|]. intros a _.
  apply bind_fuel; [apply at_index_fuel|]. intros b _.
  apply bind_fuel; [apply Hcomp|]. intros c _.
  apply bind_fuel; [apply at_index_fuel|]. intros x _.
  apply IH; [done|]. destruct c; lia.
Qed.

(** [__adjust_heap] from the top, as [pop_heap] calls it: [1 <= len]. *)
Lemma adjust_heap_perm (first : list A) len value r :
  (1 <= len <= length first)%nat ->
  __adjust_heap comp first 0 len value = Ok r ->
  r ≡ₚ <[0%nat := value]> first /\
  (forall j, (len <= j)%nat -> r !! j = first !! j).
Proof.
  intros Hlen Hr. unfold __adjust_heap in Hr.
  apply bind_Ok in Hr as ([[first1 hole1] sc1] & Hloop & Hr).
  apply adjust_heap_loop_perm in Hloop as (Hperm1 & Hb1 & Hlen1 & Hfix1);
    [|lia|lia]. simpl in *.
  apply bind_Ok in Hr as ([first2 hole2] & Hmid & Hr).
  assert ((forall x, <[hole2 := x]> first2 ≡ₚ <[0%nat := x]> first) /\
          (hole2 < len)%nat /\ length first2 = length first /\
          (forall j, (len <= j)%nat -> first2 !! j = first !! j))
    as (Hperm2 & Hb2 & Hlen2 & Hfix2).
  { case_decide as Heven.
    - destruct Heven as [Heven Hsc].
      apply bind_Ok in Hmid as (x & Hx%at_index_Ok & Hmid).
      inversion Hmid; subst first2 hole2; clear Hmid.
      assert (2 <= len)%nat as Hlen2.
      { destruct (decide (len = 1%nat)) as [->|]; [discriminate|lia]. }
      pose proof (even_last_child len Heven Hlen2) as Hchild.
      rewrite <-Hsc in Hchild. rewrite Hchild in *.
      split_and!; [|lia|rewrite length_insert; lia|].
      + intros y. rewrite <-Hperm1.
        rewrite <-(list_insert_insert_eq first1 hole1 x y).
        apply Permutation_insert_swap.
        * apply list_lookup_insert_eq; lia.
        * rewrite list_lookup_insert_ne by lia. done.
      + intros j Hj. rewrite <-Hfix1 by done.
        apply list_lookup_insert_ne; lia.
    - inversion Hmid; subst. split_and!; [done|lia|done|done]. }
  apply push_heap_loop_perm in Hr as [Hperm3 Hfix3]; [|lia].
  split.
  - by rewrite Hperm3.
  - intros j Hj. rewrite Hfix3 by lia. by apply Hfix2.
Qed.

Lemma adjust_heap_fuel (first : list A) hole len value :
  (forall x y, comp x y ≠ OutOfFuel) ->
  __adjust_heap comp first hole len value ≠ OutOfFuel.
Proof.
  intros Hcomp. unfold __adjust_heap.
  apply bind_fuel; [apply adjust_heap_loop_fuel; [done|lia]|].
  intros [[first1 hole1] sc1] _.
  apply bind_fuel.
  - case_decide; [|done].
    apply bind_fuel; [apply at_index_fuel|]. done.
  - intros [first2 hole2] _. apply push_heap_loop_fuel; [done|lia].
Qed.

(** [push] adds exactly the new element. *)
Lemma pq_push_perm (c : list A) x r :
  pq_push comp c x = Ok r -> r ≡ₚ x :: c.
Proof.
  unfold pq_push, push_heap, __push_heap. intros Hr.
  apply bind_Ok in Hr as (value & Hv%at_index_Ok & Hr).
  assert (length (c ++ [x]) - 1 = length c)%nat as Hl.
  { rewrite length_app. simpl. lia. }
  rewrite Hl in Hv, Hr.
  rewrite lookup_app_r, Nat.sub_diag in Hv by lia. simpl in Hv.
  inversion Hv; subst value.
  apply push_heap_loop_perm in Hr as [Hperm _];
    [|rewrite length_app; simpl; lia].
  rewrite Hperm, list_insert_id.
  - by rewrite Permutation_app_comm.
  - rewrite lookup_app_r, Nat.sub_diag by lia. done.
Qed.

Lemma pq_push_fuel (c : list A) x :
  (forall x y, comp x y ≠ OutOfFuel) -> pq_push comp c x ≠ OutOfFuel.
Proof.
  intros Hcomp. unfold pq_push, push_heap, __push_heap.
  apply bind_fuel; [apply at_index_fuel|]. intros v _.
  apply push_heap_loop_fuel; [done|lia].
Qed.

(** [pop] removes exactly the top element. *)
Lemma pq_pop_perm (top : A) (rest r : list A) :
  pq_pop comp (top :: rest) = Ok r -> r ≡ₚ rest.
Proof.
  unfold pq_pop, pop_heap. intros Hr.
  apply bind_Ok in Hr as (c' & Hpop & Hr). inversion Hr; subst r; clear Hr.
  case_decide as Hlen.
  - simpl in Hlen. 
    destruct (last_is_Some rest) as [_ [value Hlast]].
    { destruct rest; simpl in *; [lia|done]. }
    apply last_Some in Hlast as [mid ->].
    apply bind_Ok in Hpop as (v & Hv%at_index_Ok & Hpop).
    apply bind_Ok in Hpop as (t & Ht%at_index_Ok & Hpop).
    simpl in Ht. inversion Ht; subst t; clear Ht.
    assert (length (top :: mid ++ [value]) - 1 = S (length mid))%nat as Hl.
    { simpl. rewrite length_app. simpl. lia. }
    rewrite Hl in Hv, Hpop.
    change (top :: mid ++ [value]) with ((top :: mid) ++ [value]) in Hv, Hpop.
    rewrite lookup_app_r in Hv by (simpl; lia).
    rewrite insert_app_r_alt in Hpop by (simpl; lia).
    replace (S (length mid) - length (top :: mid))%nat with 0%nat
      in Hv, Hpop by (simpl; lia).
    inversion Hv; subst v; clear Hv.
    change (<[0%nat:=top]> [value]) with [top] in Hpop.
    apply adjust_heap_perm in Hpop as [Hperm Hfix];
      [|simpl; rewrite length_app; simpl; lia].
    simpl in Hperm.
    specialize (Hfix (S (length mid))). 
    rewrite (lookup_app_r (top :: mid)), Nat.sub_diag in Hfix by (simpl; lia).
    specialize (Hfix ltac:(lia)). simpl in Hfix.
    assert (last c' = Some top) as Hc'.
    { rewrite last_lookup.
      replace (pred (length c')) with (S (length mid)); [done|].
      apply Permutation_length in Hperm. simpl in Hperm.
      rewrite length_app in Hperm. simpl in Hperm. lia. }
    apply last_Some in Hc' as [c'' ->].
    rewrite removelast_last.
    rewrite (Permutation_app_comm mid [value]). simpl.
    change (value :: mid ++ [top]) with ((value :: mid) ++ [top]) in Hperm.
    by apply Permutation_app_inv_r in Hperm.
  - inversion Hpop; subst c'. destruct rest; simpl in *; [done|lia].
Qed.

Lemma pq_pop_fuel (c : list A) :
  (forall x y, comp x y ≠ OutOfFuel) -> pq_pop comp c ≠ OutOfFuel.
Proof.
  intros Hcomp. unfold pq_pop, pop_heap. destruct c as [|t c]; [done|].
  apply bind_fuel; [|done].
  case_decide; [|done].
  apply bind_fuel; [apply at_index_fuel|]. intros v _.
  apply bind_fuel; [apply at_index_fuel|]. intros t' _.
  by apply adjust_heap_fuel.
Qed.

(** *** The comparisons the algorithms make

    [defined_on] is a set of elements on which every comparison has an
    answer; [push] compares the new element with elements of the heap, and
    [pop] compares elements other than the top with each other. *)

Variable D : A -> Prop.
Hypothesis comp_defined : forall x y, D x -> D y -> is_Ok (comp x y).

Lemma push_heap_loop_defined fuel : forall (first : list A) hole top value,
  (hole < fuel)%nat -> (hole < length first)%nat -> D value ->
  (forall j x, (j < hole)%nat -> first !! j = Some x -> D x) ->
  is_Ok (push_heap_loop comp fuel first hole top value).
Proof using comp_defined.
  induction fuel as [|fuel IH]; intros first hole top value Hfuel Hlen Hv Hd;
    [lia|].
  simpl. case_decide as Hcmp; [|by eexists].
  assert ((hole - 1) / 2 < hole)%nat as Hpar.
  { apply Nat.Div0.div_lt_upper_bound; lia. }
  destruct (lookup_lt_is_Some_2 first ((hole - 1) / 2)) as [p Hp]; [lia|].
  rewrite (proj2 (at_index_Ok first _ p) Hp). simpl.
  destruct (comp_defined p value) as [c ->]; [by eapply Hd|done|]. simpl.
  destruct c; [|by eexists].
  apply IH; [lia|rewrite length_insert; lia|done|].
  intros j x Hj. rewrite list_lookup_insert_ne by lia. apply Hd. lia.
Qed.

Lemma adjust_heap_loop_defined fuel : forall (first : list A) hole sc len,
  (len - sc < fuel)%nat ->
  (hole <= sc < len)%nat -> (len <= length first)%nat ->
  (forall j x, (j < len)%nat -> j ≠ hole -> first !! j = Some x -> D x) ->
  exists r, adjust_heap_loop comp fuel first hole sc len = Ok r /\
    forall j x, (j < len)%nat -> j ≠ r.1.2 -> r.1.1 !! j = Some x -> D x.
Proof using comp_defined.
  induction fuel as [|fuel IH]; intros first hole sc len Hfuel Hsc Hlen Hd;
    [lia|].
  simpl. case_decide as Hcmp; [|by eexists].
  apply half_bound in Hcmp.
  destruct (lookup_lt_is_Some_2 first (2 * (sc + 1))) as [a Ha]; [lia|].
  destruct (lookup_lt_is_Some_2 first (2 * (sc + 1) - 1)) as [b Hb]; [lia|].
  rewrite (proj2 (at_index_Ok first _ a) Ha). simpl.
  rewrite (proj2 (at_index_Ok first _ b) Hb). simpl.
  destruct (comp_defined a b) as [c ->];
    [eapply Hd; [|
     |exact Ha]; lia|eapply Hd; [| |exact Hb]; lia|].
  simpl.
  set (sc2 := if c then (2 * (sc + 1) - 1)%nat else (2 * (sc + 1))%nat).
  assert (sc < sc2 < len)%nat as Hsc2 by (destruct c; simpl in sc2; lia).
  destruct (lookup_lt_is_Some_2 first sc2) as [x Hx]; [lia|].
  rewrite (proj2 (at_index_Ok first _ x) Hx). simpl.
  apply IH; [lia|lia|rewrite length_insert; lia|].
  intros j y Hj Hne. destruct (decide (j = hole)) as [->|Hjh].
  - rewrite list_lookup_insert_eq by lia. intros [= <-].
    eapply Hd; [| |exact Hx]; lia.
  - rewrite list_lookup_insert_ne by done. by apply Hd.
Qed.

Lemma adjust_heap_defined (first : list A) len value :
  (1 <= len <= length first)%nat -> D value ->
  (forall j x, (0 < j < len)%nat -> first !! j = Some x -> D x) ->
  is_Ok (__adjust_heap comp first 0 len value).
Proof using comp_defined.
  intros Hlen Hv Hd. unfold __adjust_heap.
  destruct (adjust_heap_loop_defined (S len) first 0 0 len)
    as ([[first1 hole1] sc1] & Hloop & Hd1); [lia|lia|lia| |].
  { intros j x Hj Hne. apply Hd. lia. }
  rewrite Hloop. simpl.
  apply adjust_heap_loop_perm in Hloop as (_ & Hb1 & Hlen1 & _); [|lia|lia].
  simpl in *.
  case_decide as Heven.
  - destruct Heven as [Heven Hsc].
    assert (2 <= len)%nat as Hlen2.
    { destruct (decide (len = 1%nat)) as [->|]; [discriminate|lia]. }
    pose proof (even_last_child len Heven Hlen2) as Hchild.
    rewrite <-Hsc in Hchild. rewrite Hchild.
    destruct (lookup_lt_is_Some_2 first1 (len - 1)) as [x Hx]; [lia|].
    rewrite (proj2 (at_index_Ok first1 _ x) Hx). simpl.
    apply push_heap_loop_defined; [lia|rewrite length_insert; lia|done|].
    intros j y Hj. destruct (decide (j = hole1)) as [->|Hjh].
    + rewrite list_lookup_insert_eq by lia. intros [= <-].
      eapply Hd1; [| |exact Hx]; lia.
    + rewrite list_lookup_insert_ne by done. apply Hd1; [lia|done].
  - simpl. apply push_heap_loop_defined; [lia|lia|done|].
    intros j y Hj. apply Hd1; lia.
Qed.

Lemma pq_push_defined (c : list A) x :
  D x -> (forall y, y ∈ c -> D y) -> is_Ok (pq_push comp c x).
Proof using comp_defined.
  intros Hx Hc. unfold pq_push, push_heap, __push_heap.
  assert (length (c ++ [x]) - 1 = length c)%nat as Hl.
  { rewrite length_app. simpl. lia. }
  rewrite Hl.
  assert (at_index (c ++ [x]) (length c) = Ok x) as ->.
  { apply at_index_Ok. by rewrite lookup_app_r, Nat.sub_diag by lia. }
  rewrite bind_Ok_l.
  apply push_heap_loop_defined; [lia|rewrite length_app; simpl; lia|done|].
  intros j y Hj. rewrite lookup_app_l by done.
  intros Hy. apply Hc. by eapply list_elem_of_lookup_2.
Qed.

Lemma pq_pop_defined (top : A) (rest : list A) :
  (forall y, y ∈ rest -> D y) -> is_Ok (pq_pop comp (top :: rest)).
Proof using comp_defined.
  intros Hrest. unfold pq_pop, pop_heap.
  case_decide as Hlen; [|by eexists].
  simpl in Hlen.
  destruct (last_is_Some rest) as [_ [value Hlast]].
  { destruct rest; simpl in *; [lia|done]. }
  apply last_Some in Hlast as [mid ->].
  assert (length (top :: mid ++ [value]) - 1 = S (length mid))%nat as Hl.
  { simpl. rewrite length_app. simpl. lia. }
  rewrite Hl.
  assert (at_index (top :: mid ++ [value]) (S (length mid)) = Ok value) as ->.
  { apply at_index_Ok. simpl. by rewrite lookup_app_r, Nat.sub_diag by lia. }
  assert (at_index (top :: mid ++ [value]) 0 = Ok top) as -> by done.
  rewrite !bind_Ok_l.
  assert (<[S (length mid) := top]> (top :: mid ++ [value])
          = top :: mid ++ [top]) as ->.
  { simpl. by rewrite insert_app_r_alt, Nat.sub_diag by lia. }
  destruct (adjust_heap_defined (top :: mid ++ [top]) (S (length mid)) value)
    as [r Hr].
  - simpl. rewrite length_app. simpl. lia.
  - apply Hrest. apply elem_of_app. right. by left.
  - intros [|j] x Hj; [lia|]. simpl. rewrite lookup_app_l by lia.
    intros Hx. apply Hrest. apply elem_of_app. left.
    by eapply list_elem_of_lookup_2.
  - rewrite Hr. by eexists.
Qed.

End heap_facts.

(** ** The heap algorithms keep the heap in order *)

(** Arithmetic of the places of a heap: the parent of [j] is
    [(j - 1) / 2], its children are [2 * j + 1] and [2 * j + 2]. *)
Ltac halves t :=
  pose proof (Nat.div_mod_eq t 2);
  pose proof (Nat.mod_upper_bound t 2 ltac:(lia)).

Lemma parent_lt (j : nat) : (0 < j)%nat -> ((j - 1) / 2 < j)%nat.
Proof. intros. halves (j - 1)%nat. lia. Qed.

Lemma child_parent (j h : nat) :
  j = (2 * h + 1)%nat \/ j = (2 * h + 2)%nat -> ((j - 1) / 2)%nat = h.
Proof. intros. halves (j - 1)%nat. lia. Qed.

Lemma land_1 (len : nat) : Nat.land len 1 = (len mod 2)%nat.
Proof.
  change 1%nat with (Nat.ones 1) at 1. rewrite Nat.land_ones. done.
Qed.

(** When the loop of [__adjust_heap] is over and the hole has no only
    child to take, the hole has no child at all. *)
Lemma leaf_hole (hole len j : nat) :
  ¬ (hole < (len - 1) / 2)%nat ->
  ¬ (Nat.land len 1 = 0%nat /\ hole = ((len - 2) / 2)%nat) ->
  (0 < j < len)%nat -> ((j - 1) / 2)%nat ≠ hole.
Proof.
  rewrite land_1. intros Hloop Hone Hj Hpar.
  halves (j - 1)%nat. halves (len - 1)%nat. halves (len - 2)%nat. halves len.
  lia.
Qed.

Lemma parent_children (j h : nat) :
  (0 < j)%nat -> ((j - 1) / 2)%nat = h ->
  j = (2 * h + 1)%nat \/ j = (2 * h + 2)%nat.
Proof. intros. halves (j - 1)%nat. lia. Qed.

Section heap_order_facts.
Context {A : Type}.
Variable comp : A -> A -> result bool.
Variable prio : A -> Z.
Variable D : A -> Prop.
Hypothesis comp_prio :
  forall x y, D x -> D y -> comp x y = Ok (bool_decide (prio x > prio y)).

(** The places other than the hole hold elements that can be compared. *)
Let comparable (hole n : nat) (v : list A) : Prop :=
  forall j x, (j < n)%nat -> j ≠ hole -> v !! j = Some x -> D x.

Lemma prio_at_Some (v : list A) j x : v !! j = Some x -> prio_at prio v j = prio x.
Proof. unfold prio_at. by intros ->. Qed.

Lemma prio_at_insert_eq (v : list A) i x :
  (i < length v)%nat -> prio_at prio (<[i := x]> v) i = prio x.
Proof. intros Hi. unfold prio_at. by rewrite list_lookup_insert_eq. Qed.

Lemma prio_at_insert_ne (v : list A) i x j :
  i ≠ j -> prio_at prio (<[i := x]> v) j = prio_at prio v j.
Proof. intros Hi. unfold prio_at. by rewrite list_lookup_insert_ne. Qed.

Lemma heap_root_min n (v : list A) :
  heap_ordered prio n v ->
  forall j, (j < n)%nat -> prio_at prio v 0 <= prio_at prio v j.
Proof.
  intros Hheap j. induction (lt_wf j) as [j _ IH]. intros Hj.
  destruct (decide (j = 0%nat)) as [->|Hne]; [lia|].
  specialize (Hheap j ltac:(lia)).
  assert ((j - 1) / 2 < j)%nat as Hpar by (apply parent_lt; lia).
  specialize (IH _ Hpar ltac:(lia)). lia.
Qed.

Lemma push_heap_loop_ordered fuel : forall (first : list A) hole value r n,
  (hole < n <= length first)%nat -> D value ->
  comparable hole n first ->
  ordered_but prio hole n first -> bridged prio hole n first ->
  (forall j, (0 < j < n)%nat -> ((j - 1) / 2)%nat = hole ->
     prio value <= prio_at prio first j) ->
  push_heap_loop comp fuel first hole 0 value = Ok r ->
  heap_ordered prio n r.
Proof using comp_prio.
  induction fuel as [|fuel IH];
    intros first hole value r n Hn Hv Hd Ha Hb Hc Hr; [done|].
  simpl in Hr. case_decide as Hcmp.
  - apply bind_Ok in Hr as (p & Hp%at_index_Ok & Hr).
    assert ((hole - 1) / 2 < hole)%nat as Hpar by (apply parent_lt; lia).
    assert (D p) as Hdp by (eapply Hd; [| |exact Hp]; lia).
    rewrite (comp_prio p value Hdp Hv), bind_Ok_l in Hr.
    pose proof (prio_at_Some first _ p Hp) as Hpp.
    case_bool_decide as Hgt.
    + eapply IH; [| | | | | |exact Hr].
      * rewrite length_insert. lia.
      * done.
      * intros j x Hj Hne. destruct (decide (j = hole)) as [->|Hjh].
        -- rewrite list_lookup_insert_eq by lia. by intros [= <-].
        -- rewrite list_lookup_insert_ne by done. by apply Hd.
      * intros j Hj Hne Hpne.
        destruct (decide (j = hole)) as [->|Hjh]; [done|].
        rewrite (prio_at_insert_ne first hole p j) by done.
        destruct (decide (((j - 1) / 2)%nat = hole)) as [Hph|Hph].
        -- rewrite Hph, prio_at_insert_eq by lia. rewrite <-Hpp.
           by apply Hb.
        -- rewrite prio_at_insert_ne by done. by apply Ha.
      * intros j Hj Hjp Hpos.
        assert ((((hole - 1) / 2 - 1) / 2)%nat ≠ hole) as Hg.
        { pose proof (parent_lt ((hole - 1) / 2) Hpos). lia. }
        rewrite (prio_at_insert_ne first hole p _) by done.
        pose proof (Ha ((hole - 1) / 2)%nat ltac:(lia) ltac:(lia) Hg) as Hgp.
        destruct (decide (j = hole)) as [->|Hjh].
        -- rewrite prio_at_insert_eq by lia. lia.
        -- rewrite prio_at_insert_ne by done.
           pose proof (Ha j Hj Hjh ltac:(lia)) as Hj'. rewrite Hjp in Hj'. lia.
      * intros j Hj Hjp. destruct (decide (j = hole)) as [->|Hjh].
        -- rewrite prio_at_insert_eq by lia. lia.
        -- rewrite prio_at_insert_ne by done.
           pose proof (Ha j Hj Hjh ltac:(lia)) as Hj'. rewrite Hjp in Hj'. lia.
    + inversion Hr; subst r; clear Hr. intros j Hj.
      destruct (decide (j = hole)) as [->|Hjh].
      * rewrite prio_at_insert_eq, prio_at_insert_ne by lia. lia.
      * rewrite (prio_at_insert_ne first hole value j) by done.
        destruct (decide (((j - 1) / 2)%nat = hole)) as [Hph|Hph].
        -- rewrite Hph, prio_at_insert_eq by lia. by apply Hc.
        -- rewrite prio_at_insert_ne by done. by apply Ha.
  - inversion Hr; subst r; clear Hr. intros j Hj.
    assert (hole = 0%nat) as -> by lia.
    rewrite (prio_at_insert_ne first 0 value j) by lia.
    destruct (decide (((j - 1) / 2)%nat = 0%nat)) as [Hph|Hph].
    + rewrite Hph, prio_at_insert_eq by lia. by apply Hc.
    + rewrite prio_at_insert_ne by done. apply Ha; [done|lia|done].
Qed.

Lemma adjust_heap_loop_ordered fuel : forall (first : list A) hole len r,
  (hole < len <= length first)%nat ->
  comparable hole len first ->
  ordered_but prio hole len first -> bridged prio hole len first ->
  adjust_heap_loop comp fuel first hole hole len = Ok r ->
  r.1.2 = r.2 /\ (r.1.2 < len)%nat /\ length r.1.1 = length first /\
  comparable r.1.2 len r.1.1 /\
  ordered_but prio r.1.2 len r.1.1 /\ bridged prio r.1.2 len r.1.1 /\
  ¬ (r.2 < (len - 1) / 2)%nat.
Proof using comp_prio.
  induction fuel as [|fuel IH]; intros first hole len r Hn Hd Ha Hb Hr; [done|].
  simpl in Hr. case_decide as Hcmp.
  2:{ inversion Hr; subst r; simpl. split_and!; (done || lia). }
  pose proof (half_bound _ _ Hcmp) as Hbound.
  apply bind_Ok in Hr as (a & Hia%at_index_Ok & Hr).
  apply bind_Ok in Hr as (b & Hib%at_index_Ok & Hr).
  assert (D a) as Hda by (eapply Hd; [| |exact Hia]; lia).
  assert (D b) as Hdb by (eapply Hd; [| |exact Hib]; lia).
  rewrite (comp_prio a b Hda Hdb), bind_Ok_l in Hr.
  apply bind_Ok in Hr as (x & Hx%at_index_Ok & Hr).
  pose proof (prio_at_Some first _ a Hia) as Hpa.
  pose proof (prio_at_Some first _ b Hib) as Hpb.
  pose proof (prio_at_Some first _ x Hx) as Hpx.
  set (sc2 := if bool_decide (prio a > prio b)
              then (2 * (hole + 1) - 1)%nat else (2 * (hole + 1))%nat) in *.
  assert (sc2 = (2 * hole + 1)%nat \/ sc2 = (2 * hole + 2)%nat) as Hsc2.
  { unfold sc2. case_bool_decide; lia. }
  assert (hole < sc2 < len)%nat as Hrange by lia.
  pose proof (child_parent sc2 hole Hsc2) as Hpsc2.
  assert (D x /\
          forall j, (0 < j < len)%nat -> j ≠ sc2 -> ((j - 1) / 2)%nat = hole ->
                    prio x <= prio_at prio first j) as [Hdx Hsmall].
  { unfold sc2 in *. case_bool_decide as Hgt.
    - rewrite Hib in Hx. inversion Hx; subst x. split; [done|].
      intros j Hj Hne Hpj.
      destruct (parent_children j hole ltac:(lia) Hpj) as [->| ->]; [lia|].
      replace (2 * hole + 2)%nat with (2 * (hole + 1))%nat by lia. lia.
    - rewrite Hia in Hx. inversion Hx; subst x. split; [done|].
      intros j Hj Hne Hpj.
      destruct (parent_children j hole ltac:(lia) Hpj) as [->| ->]; [|lia].
      replace (2 * hole + 1)%nat with (2 * (hole + 1) - 1)%nat by lia. lia. }
  eapply IH in Hr; [by rewrite length_insert in Hr| | | |].
  - rewrite length_insert. lia.
  - intros j y Hj Hne. destruct (decide (j = hole)) as [->|Hjh].
    + rewrite list_lookup_insert_eq by lia. by intros [= <-].
    + rewrite list_lookup_insert_ne by done. by apply Hd.
  - intros j Hj Hne Hpne. destruct (decide (j = hole)) as [->|Hjh].
    + rewrite prio_at_insert_eq by lia.
      rewrite prio_at_insert_ne by (pose proof (parent_lt hole); lia).
      rewrite <-Hpx. apply Hb; [lia|done|lia].
    + rewrite (prio_at_insert_ne first hole x j) by done.
      destruct (decide (((j - 1) / 2)%nat = hole)) as [Hph|Hph].
      * rewrite Hph, prio_at_insert_eq by lia. by apply Hsmall.
      * rewrite prio_at_insert_ne by done. by apply Ha.
  - intros j Hj Hjp Hpos. rewrite Hpsc2.
    rewrite prio_at_insert_eq by lia.
    assert (sc2 < j)%nat as Hlt by (pose proof (parent_lt j); lia).
    rewrite prio_at_insert_ne by lia. rewrite <-Hpx, <-Hjp.
    apply Ha; [done|lia|lia].
Qed.

Lemma adjust_heap_ordered (first : list A) len value r :
  (1 <= len <= length first)%nat -> D value ->
  comparable 0 len first -> ordered_but prio 0 len first ->
  __adjust_heap comp first 0 len value = Ok r ->
  heap_ordered prio len r.
Proof using comp_prio.
  intros Hlen Hv Hd Ha Hr. unfold __adjust_heap in Hr.
  apply bind_Ok in Hr as ([[first1 hole1] sc1] & Hloop & Hr).
  apply adjust_heap_loop_ordered in Hloop
    as (Hsc & Hb1 & Hlen1 & Hd1 & Ha1 & Hbr1 & Hexit);
    [|lia|done|done|intros j _ _ ?; lia].
  simpl in *. subst sc1.
  apply bind_Ok in Hr as ([first2 hole2] & Hmid & Hr).
  case_decide as Heven.
  - destruct Heven as [Heven Hsc].
    apply bind_Ok in Hmid as (x & Hx%at_index_Ok & Hmid).
    inversion Hmid; subst first2 hole2; clear Hmid.
    assert (2 <= len)%nat as Hlen2.
    { destruct (decide (len = 1%nat)) as [->|]; [discriminate|lia]. }
    pose proof (even_last_child len Heven Hlen2) as Hchild.
    rewrite <-Hsc in Hchild. rewrite Hchild in *.
    pose proof (prio_at_Some first1 _ x Hx) as Hpx.
    assert (((len - 1 - 1) / 2)%nat = hole1) as Hpl by (apply child_parent; lia).
    eapply push_heap_loop_ordered; [| | | | | |exact Hr].
    + rewrite length_insert. lia.
    + done.
    + intros j y Hj Hne. destruct (decide (j = hole1)) as [->|Hjh].
      * rewrite list_lookup_insert_eq by lia. intros [= <-].
        eapply Hd1; [| |exact Hx]; lia.
      * rewrite list_lookup_insert_ne by done. by apply Hd1.
    + intros j Hj Hne Hpne. destruct (decide (j = hole1)) as [->|Hjh].
      * rewrite prio_at_insert_eq by lia.
        rewrite prio_at_insert_ne by (pose proof (parent_lt hole1); lia).
        rewrite <-Hpx. apply Hbr1; [lia|done|lia].
      * rewrite (prio_at_insert_ne first1 hole1 x j) by done.
        destruct (decide (((j - 1) / 2)%nat = hole1)) as [Hph|Hph].
        -- destruct (parent_children j hole1 ltac:(lia) Hph); lia.
        -- rewrite prio_at_insert_ne by done. by apply Ha1.
    + intros j Hj Hjp Hpos.
      destruct (parent_children j (len - 1) ltac:(lia) Hjp); lia.
    + intros j Hj Hjp.
      destruct (parent_children j (len - 1) ltac:(lia) Hjp); lia.
  - inversion Hmid; subst first2 hole2; clear Hmid.
    eapply push_heap_loop_ordered; [| | | | | |exact Hr]; try done.
    + lia.
    + intros j Hj Hjp. by destruct (leaf_hole hole1 len j).
Qed.

(** [push] on a heap in order leaves a heap in order. *)
Lemma pq_push_ordered (c : list A) x r :
  D x -> (forall y, y ∈ c -> D y) ->
  heap_ordered prio (length c) c ->
  pq_push comp c x = Ok r ->
  heap_ordered prio (length r) r.
Proof using comp_prio.
  intros Hx Hc Hheap Hr.
  pose proof (pq_push_perm _ _ _ _ Hr) as Hperm.
  apply Permutation_length in Hperm. simpl in Hperm. rewrite Hperm.
  unfold pq_push, push_heap, __push_heap in Hr.
  assert (length (c ++ [x]) - 1 = length c)%nat as Hl.
  { rewrite length_app. simpl. lia. }
  rewrite Hl in Hr.
  assert (at_index (c ++ [x]) (length c) = Ok x) as Hat.
  { apply at_index_Ok. by rewrite lookup_app_r, Nat.sub_diag by lia. }
  rewrite Hat, bind_Ok_l in Hr.
  assert (forall j, (j < length c)%nat ->
            prio_at prio (c ++ [x]) j = prio_at prio c j) as Hsame.
  { intros j Hj. unfold prio_at. by rewrite lookup_app_l. }
  eapply push_heap_loop_ordered; [| | | | | |exact Hr].
  - rewrite length_app. simpl. lia.
  - done.
  - intros j y Hj Hne. rewrite lookup_app_l by lia.
    intros Hy. apply Hc. by eapply list_elem_of_lookup_2.
  - intros j Hj Hne Hpne. pose proof (parent_lt j ltac:(lia)).
    rewrite !Hsame by lia. apply Hheap. lia.
  - intros j Hj Hjp. destruct (parent_children j (length c) ltac:(lia) Hjp); lia.
  - intros j Hj Hjp. destruct (parent_children j (length c) ltac:(lia) Hjp); lia.
Qed.

(** [pop] on a heap in order below its top leaves a heap in order. *)
Lemma pq_pop_ordered (top : A) (rest r : list A) :
  (forall y, y ∈ rest -> D y) ->
  ordered_but prio 0 (S (length rest)) (top :: rest) ->
  pq_pop comp (top :: rest) = Ok r ->
  heap_ordered prio (length r) r.
Proof using comp_prio.
  intros Hrest Ha Hr.
  pose proof (pq_pop_perm _ _ _ _ Hr) as Hperm.
  apply Permutation_length in Hperm. rewrite Hperm.
  unfold pq_pop, pop_heap in Hr.
  apply bind_Ok in Hr as (c' & Hpop & [= <-]).
  case_decide as Hlen.
  2:{ destruct rest; simpl in *; [|lia]. intros j Hj. lia. }
  simpl in Hlen.
  destruct (last_is_Some rest) as [_ [value Hlast]].
  { destruct rest; simpl in *; [lia|done]. }
  apply last_Some in Hlast as [mid ->].
  assert (length (top :: mid ++ [value]) - 1 = S (length mid))%nat as Hl.
  { simpl. rewrite length_app. simpl. lia. }
  rewrite Hl in Hpop.
  assert (at_index (top :: mid ++ [value]) (S (length mid)) = Ok value) as Hat.
  { apply at_index_Ok. simpl. by rewrite lookup_app_r, Nat.sub_diag by lia. }
  assert (at_index (top :: mid ++ [value]) 0 = Ok top) as Hat0 by done.
  rewrite Hat, Hat0, !bind_Ok_l in Hpop.
  assert (<[S (length mid) := top]> (top :: mid ++ [value])
          = top :: mid ++ [top]) as Hins.
  { simpl. by rewrite insert_app_r_alt, Nat.sub_diag by lia. }
  rewrite Hins in Hpop. rewrite length_app in *. simpl in *.
  replace (length mid + 1)%nat with (S (length mid)) in * by lia.
  assert (forall j, (j < S (length mid))%nat ->
            prio_at prio (top :: mid ++ [top]) j
            = prio_at prio (top :: mid ++ [value]) j) as Hsame.
  { intros [|j] Hj; [done|]. unfold prio_at. simpl.
    by rewrite !lookup_app_l by lia. }
  assert (1 <= S (length mid) <= length (top :: mid ++ [top]))%nat as Hrange.
  { simpl. rewrite length_app. simpl. lia. }
  pose proof (adjust_heap_perm _ _ _ _ _ Hrange Hpop) as [Hperm' _].
  apply adjust_heap_ordered in Hpop.
  - intros j Hj. specialize (Hpop j Hj).
    pose proof (parent_lt j ltac:(lia)).
    apply Permutation_length in Hperm'. simpl in Hperm'.
    rewrite length_app in Hperm'. simpl in Hperm'.
    unfold prio_at in *.
    rewrite !lookup_removelast by lia. done.
  - done.
  - apply Hrest. apply elem_of_app. right. by left.
  - intros [|j] y Hj Hne; [done|]. simpl. rewrite lookup_app_l by lia.
    intros Hy. apply Hrest. apply elem_of_app. left.
    by eapply list_elem_of_lookup_2.
  - intros j Hj Hne Hpne. pose proof (parent_lt j ltac:(lia)).
    rewrite !Hsame by lia. apply Ha; [lia|done|done].
Qed.

End heap_order_facts.

Lemma heap_ordered_ext {A} (prio1 prio2 : A -> Z) n (v : list A) :
  (forall x, x ∈ v -> prio1 x = prio2 x) ->
  heap_ordered prio1 n v -> heap_ordered prio2 n v.
Proof.
  intros Hext Hheap j Hj. specialize (Hheap j Hj).
  assert (forall i, prio_at prio2 v i = prio_at prio1 v i) as Hsame.
  { intros i. unfold prio_at. destruct (v !! i) as [x|] eqn:Hx; [simpl|done].
    symmetry. apply Hext. by eapply list_elem_of_lookup_2. }
  by rewrite !Hsame.
Qed.

(** ** Sorting *)

Section sorting_facts.
Context {A : Type}.
Variable comp : A -> A -> result bool.
Variable f : A -> A -> bool.

Let R (a b : A) : Prop := f a b = true.

Lemma sort_insert_sorted x l :
  (forall y, y ∈ l -> comp x y = Ok (f x y)) ->
  exists r, sort_insert comp x l = Ok r /\ r ≡ₚ x :: l /\
    (Transitive R -> (forall y, y ∈ l -> f x y = false -> R y x) ->
     StronglySorted R l -> StronglySorted R r).
Proof.
  induction l as [|y l IH]; intros Hcomp.
  { exists [x]. split_and!; [done|done|].
    intros _ _ _. repeat constructor. }
  simpl. rewrite Hcomp by left. simpl.
  destruct (f x y) eqn:Hxy.
  - exists (x :: y :: l). split_and!; [done|done|].
    intros Htrans _ Hsorted. constructor; [done|].
    constructor; [done|].
    apply StronglySorted_inv in Hsorted as [_ Hall].
    eapply Forall_impl; [exact Hall|]. intros z Hz. by trans y.
  - destruct IH as (r & -> & Hperm & Hsort).
    { intros z Hz. apply Hcomp. by right. }
    exists (y :: r). split_and!; [done|by rewrite Hperm, Permutation_swap|].
    intros Htrans Htotal Hsorted.
    apply StronglySorted_inv in Hsorted as [Hsorted Hall].
    constructor.
    + apply Hsort; [done| |done]. intros z Hz. apply Htotal. by right.
    + rewrite Hperm. constructor; [|done]. apply Htotal; [by left|done].
Qed.

Lemma std_sort_sorted l :
  (forall x y, x ∈ l -> y ∈ l -> comp x y = Ok (f x y)) ->
  exists r, std_sort comp l = Ok r /\ r ≡ₚ l /\
    (Transitive R ->
     (forall x y, x ∈ l -> y ∈ l -> x ≠ y -> f x y = false -> R y x) ->
     NoDup l -> StronglySorted R r).
Proof.
  induction l as [|x l IH]; intros Hcomp.
  { exists []. split_and!; [done|done|]. intros _ _ _. constructor. }
  destruct IH as (r & Hr & Hperm & Hsort).
  { intros a b Ha Hb. apply Hcomp; by right. }
  destruct (sort_insert_sorted x r) as (r' & Hr' & Hperm' & Hsort').
  { intros y Hy. rewrite Hperm in Hy. apply Hcomp; [by left|by right]. }
  exists r'. simpl. rewrite Hr. simpl. split_and!; [done|by rewrite Hperm', Hperm|].
  intros Htrans Htotal [Hx Hnodup]%NoDup_cons.
  apply Hsort'; [done| |].
  - intros y Hy. rewrite Hperm in Hy.
    apply Htotal; [by left|by right|]. intros ->. done.
  - apply Hsort; [done| |done]. intros a b Ha Hb. apply Htotal; by right.
Qed.

End sorting_facts.

(** ** The container *)

Section ExpiringMap_facts.
Context {K : Type} `{Countable K} {V : Type}.
Variable K_lt : K -> K -> bool.
Variable V_default : V.
Variable clock : nat -> Z.

Abbreviation State := (@State K _ _ V).
Abbreviation Item := (@Item K V).

Implicit Types (s : State) (key k : K) (p w : ptr) (it : Item).

Lemma deref_Ok s p it : deref s p = Ok it <-> items s !! p = Some it.
Proof. unfold deref. destruct (items s !! p); split; congruence. Qed.

Lemma entry_Some s k it :
  entry s k = Some it <->
  exists p, internal_map_ s !! k = Some p /\ items s !! p = Some it.
Proof.
  unfold entry. destruct (internal_map_ s !! k) as [p|]; simpl.
  - split; [eauto|]. by intros (p' & [= <-] & Hit).
  - split; [done|]. by intros (p' & [=] & _).
Qed.

(** Reading the members of a state whose horizon was just replaced. *)
Ltac members :=
  cbn [set_queue internal_map_ items expired_queue_ next_item clock_reads] in *.

Lemma ItemCompare_fuel s lhs rhs : ItemCompare s lhs rhs ≠ OutOfFuel.
Proof.
  unfold ItemCompare, deref.
  destruct (items s !! lhs); [|done]. destruct (items s !! rhs); done.
Qed.

Lemma map_erase_queue key s :
  expired_queue_ (map_erase key s) = expired_queue_ s.
Proof. unfold map_erase. by destruct (internal_map_ s !! key). Qed.

Lemma map_erase_map key s :
  internal_map_ (map_erase key s) = delete key (internal_map_ s).
Proof.
  unfold map_erase. destruct (internal_map_ s !! key) eqn:E; [done|].
  by rewrite delete_id.
Qed.

Lemma map_erase_items key s :
  items (map_erase key s) =
  match internal_map_ s !! key with
  | Some p => delete p (items s)
  | None => items s
  end.
Proof. unfold map_erase. by destruct (internal_map_ s !! key). Qed.

Lemma map_erase_next key s : next_item (map_erase key s) = next_item s.
Proof. unfold map_erase. by destruct (internal_map_ s !! key). Qed.

Lemma map_erase_reads key s : clock_reads (map_erase key s) = clock_reads s.
Proof. unfold map_erase. by destruct (internal_map_ s !! key). Qed.

Lemma wf_empty_map : wf (empty_map : State).
Proof.
  split; simpl.
  - intros k p. by rewrite lookup_empty.
  - intros p it. by rewrite lookup_empty.
  - intros p [it Hit]. by rewrite lookup_empty in Hit.
  - intros p Hp. by apply elem_of_nil in Hp.
Qed.

Lemma wf_map_erase key s : wf s -> wf (map_erase key s).
Proof.
  intros [Howned Halive Hif Hqf]. split.
  - intros k p. rewrite map_erase_map, map_erase_items.
    intros [Hne Hk]%lookup_delete_Some.
    destruct (Howned k p Hk) as (it & Hit & Hkey).
    exists it. split; [|done].
    destruct (internal_map_ s !! key) as [old|] eqn:Eold; [|done].
    rewrite lookup_delete_ne; [done|]. intros ->.
    destruct (Howned key p Eold) as (it' & Hit' & Hkey'). congruence.
  - intros p it. rewrite map_erase_map, map_erase_items.
    intros Hit. 
    assert (items s !! p = Some it /\
            internal_map_ s !! key ≠ Some p) as [Hit' Hne].
    { destruct (internal_map_ s !! key) as [old|] eqn:Eold; [|done].
      apply lookup_delete_Some in Hit as [Hne Hit]. split; congruence. }
    specialize (Halive p it Hit').
    rewrite lookup_delete_ne; [done|]. intros ->. congruence.
  - intros p. rewrite map_erase_items, map_erase_next. intros [it Hit].
    apply Hif. destruct (internal_map_ s !! key); [|by eauto].
    apply lookup_delete_Some in Hit as [_ Hit]. eauto.
  - intros p. rewrite map_erase_queue, map_erase_next. apply Hqf.
Qed.

Lemma horizon_covers_map_erase key s :
  horizon_covers s -> horizon_covers (map_erase key s).
Proof.
  intros Hc k p. rewrite map_erase_map, map_erase_queue.
  intros [_ Hk]%lookup_delete_Some. by eapply Hc.
Qed.

Lemma wf_current_time s : wf s -> wf (current_time clock s).2.
Proof. by intros []. Qed.

Lemma wf_set_queue_fresh q s :
  wf s -> (forall p, p ∈ q -> (p < next_item s)%nat) -> wf (set_queue q s).
Proof. intros [] Hq. split; simpl; auto. Qed.

Lemma wf_set_queue q s :
  wf s -> (forall p, p ∈ q -> p ∈ expired_queue_ s) -> wf (set_queue q s).
Proof. intros Hwf Hq. apply wf_set_queue_fresh; [done|]. destruct Hwf; auto. Qed.

(** *** One turn of [clearExpired] *)

Lemma clearExpired_step_fuel s : clearExpired_step clock s ≠ OutOfFuel.
Proof.
  unfold clearExpired_step. destruct (pq_empty _); [done|].
  apply bind_fuel; [apply at_index_fuel|]. intros w _.
  destruct (lock s w) as [top|].
  - simpl. case_bool_decide; [done|].
    apply bind_fuel; [|done]. apply pq_pop_fuel, ItemCompare_fuel.
  - apply bind_fuel; [|done]. apply pq_pop_fuel, ItemCompare_fuel.
Qed.

(** The four ways a turn can end well: the horizon is empty; its top is
    alive and not yet due; its top is alive and due; its top is stale. *)
Lemma clearExpired_step_Ok s t :
  clearExpired_step clock s = Ok t ->
  (expired_queue_ s = [] /\ t = Stop s) \/
  (exists w rest it,
     expired_queue_ s = w :: rest /\ items s !! w = Some it /\
     expire_ it > clock (clock_reads s) /\
     t = Stop (current_time clock s).2) \/
  (exists w rest it q,
     expired_queue_ s = w :: rest /\ items s !! w = Some it /\
     expire_ it <= clock (clock_reads s) /\ q ≡ₚ rest /\
     t = Continue (set_queue q (map_erase (key_ it) (current_time clock s).2))) \/
  (exists w rest q,
     expired_queue_ s = w :: rest /\ items s !! w = None /\ q ≡ₚ rest /\
     t = Continue (set_queue q s)).
Proof.
  unfold clearExpired_step. destruct (expired_queue_ s) as [|w rest] eqn:Eq.
  { simpl. intros [= <-]. by left. }
  simpl. unfold lock. destruct (items s !! w) as [it|] eqn:Eit.
  - case_bool_decide as Hdue.
    + intros [= <-]. right; left. by exists w, rest, it.
    + intros (q & Hpop & [= <-])%bind_Ok.
      rewrite map_erase_queue in Hpop. simpl in Hpop. rewrite Eq in Hpop.
      apply pq_pop_perm in Hpop.
      right; right; left. exists w, rest, it, q. split_and!; auto; lia.
  - intros (q & Hpop & [= <-])%bind_Ok.
    apply pq_pop_perm in Hpop.
    right; right; right. by exists w, rest, q.
Qed.

Lemma clearExpired_step_shrinks s s' :
  clearExpired_step clock s = Ok (Continue s') ->
  length (expired_queue_ s) = S (length (expired_queue_ s')) /\
  internal_map_ s' ⊆ internal_map_ s.
Proof.
  intros [[_ [=]]|[(w & rest & it & _ & _ & _ & [=])|
    [(w & rest & it & q & Eq & Eit & Hdue & Hq & [= ->])|
     (w & rest & q & Eq & Eit & Hq & [= ->])]]]%clearExpired_step_Ok.
  - simpl. rewrite Eq, Hq. split; [done|].
    rewrite map_erase_map. apply delete_subseteq.
  - simpl. by rewrite Eq, Hq.
Qed.

Lemma clearExpired_step_wf s t :
  wf s -> horizon_covers s ->
  clearExpired_step clock s = Ok t ->
  wf (turn_state t) /\ horizon_covers (turn_state t).
Proof.
  intros Hwf Hcov
    [[_ ->]|[(w & rest & it & _ & _ & _ & ->)|
    [(w & rest & it & q & Eq & Eit & Hdue & Hq & ->)|
     (w & rest & q & Eq & Eit & Hq & ->)]]]%clearExpired_step_Ok; simpl.
  - done.
  - split; [by apply wf_current_time|done].
  - split.
    + apply wf_set_queue; [by apply wf_map_erase, wf_current_time|].
      intros p Hp. rewrite map_erase_queue. simpl. rewrite Eq.
      rewrite Hq in Hp. by right.
    + intros k p. simpl. rewrite map_erase_map. simpl.
      intros [Hne Hk]%lookup_delete_Some.
      specialize (Hcov k p Hk). rewrite Eq in Hcov. rewrite Hq.
      apply elem_of_cons in Hcov as [->|]; [|done].
      destruct (wf_owned s Hwf k w Hk) as (it' & Hit' & Hkey). congruence.
  - split.
    + apply wf_set_queue; [done|]. intros p Hp. rewrite Eq.
      rewrite Hq in Hp. by right.
    + intros k p Hk. simpl in *. rewrite Hq.
      specialize (Hcov k p Hk). rewrite Eq in Hcov.
      apply elem_of_cons in Hcov as [->|]; [|done].
      destruct (wf_owned s Hwf k w Hk) as (it' & Hit' & Hkey). congruence.
Qed.

Lemma clearExpired_step_mono s t :
  clearExpired_step clock s = Ok t ->
  internal_map_ (turn_state t) ⊆ internal_map_ s /\
  items (turn_state t) ⊆ items s /\
  next_item (turn_state t) = next_item s /\
  (clock_reads s <= clock_reads (turn_state t))%nat.
Proof.
  intros [[_ ->]|[(w & rest & it & _ & _ & _ & ->)|
    [(w & rest & it & q & Eq & Eit & Hdue & Hq & ->)|
     (w & rest & q & Eq & Eit & Hq & ->)]]]%clearExpired_step_Ok; simpl;
    try (split_and!; (done || lia)).
  rewrite map_erase_map, map_erase_items, map_erase_next, map_erase_reads.
  simpl. split_and!; [apply delete_subseteq| |done|lia].
  destruct (internal_map_ s !! key_ it); [apply delete_subseteq|done].
Qed.

(** An entry that is not yet due stays through a turn. *)
Lemma clearExpired_step_keeps s t k p it :
  wf s ->
  clearExpired_step clock s = Ok t ->
  internal_map_ s !! k = Some p -> items s !! p = Some it ->
  expire_ it > clock (clock_reads s) ->
  internal_map_ (turn_state t) !! k = Some p /\
  items (turn_state t) !! p = Some it.
Proof.
  intros Hwf
    [[_ ->]|[(w & rest & it0 & _ & _ & _ & ->)|
    [(w & rest & it0 & q & Eq & Eit & Hdue & Hq & ->)|
     (w & rest & q & Eq & Eit & Hq & ->)]]]%clearExpired_step_Ok Hk Hit Hlive;
    simpl; try done.
  rewrite map_erase_map, map_erase_items. simpl.
  pose proof (wf_alive s Hwf w it0 Eit) as Hw.
  assert (p ≠ w) as Hpw by (intros ->; simplify_eq; lia).
  rewrite Hw. rewrite !lookup_delete_ne; [done|done|].
  intros <-. congruence.
Qed.

(** *** The loop of [clearExpired] *)

Lemma clearExpired_loop_fuel fuel : forall s,
  (length (expired_queue_ s) < fuel)%nat ->
  clearExpired_loop clock fuel s ≠ OutOfFuel.
Proof.
  induction fuel as [|fuel IH]; intros s Hfuel; [lia|]. simpl.
  apply bind_fuel; [apply clearExpired_step_fuel|].
  intros [s'|s'] Hstep; [done|].
  apply IH. apply clearExpired_step_shrinks in Hstep as [Hlen _]. lia.
Qed.

Lemma clearExpired_turns_loop fuel : forall s,
  (clearExpired_turns clock fuel s).2 = clearExpired_loop clock fuel s.
Proof.
  induction fuel as [|fuel IH]; intros s; [done|]. simpl.
  destruct (pq_empty (expired_queue_ s)) eqn:Hempty.
  { unfold clearExpired_step. by rewrite Hempty. }
  destruct (clearExpired_step clock s) as [[s'|s']| |]; simpl; try done.
  rewrite <-IH. by destruct (clearExpired_turns clock fuel s').
Qed.

Lemma clearExpired_turns_bound fuel : forall s,
  (length (expired_queue_ s) < fuel)%nat ->
  ((clearExpired_turns clock fuel s).1 <= length (expired_queue_ s))%nat.
Proof.
  induction fuel as [|fuel IH]; intros s Hfuel; [lia|]. simpl.
  destruct (expired_queue_ s) as [|w rest] eqn:Hq; [simpl; lia|].
  cbn [pq_empty].
  destruct (clearExpired_step clock s) as [[s'|s']| |] eqn:Hstep;
    simpl; try lia.
  apply clearExpired_step_shrinks in Hstep as [Hlen _].
  rewrite Hq in Hlen. simpl in Hlen, Hfuel.
  specialize (IH s' ltac:(lia)).
  destruct (clearExpired_turns clock fuel s'). simpl in *. lia.
Qed.

Lemma clearExpired_loop_wf fuel : forall s s',
  wf s -> horizon_covers s ->
  clearExpired_loop clock fuel s = Ok s' ->
  wf s' /\ horizon_covers s'.
Proof.
  induction fuel as [|fuel IH]; intros s s' Hwf Hcov Hloop; [done|].
  simpl in Hloop. apply bind_Ok in Hloop as (t & Hstep & Hloop).
  destruct (clearExpired_step_wf s t Hwf Hcov Hstep) as [Hwf' Hcov'].
  destruct t as [s1|s1]; simpl in *.
  - by inversion Hloop; subst.
  - by eapply IH.
Qed.

Lemma clearExpired_loop_mono fuel : forall s s',
  clearExpired_loop clock fuel s = Ok s' ->
  internal_map_ s' ⊆ internal_map_ s /\
  items s' ⊆ items s /\
  next_item s' = next_item s /\
  (clock_reads s <= clock_reads s')%nat.
Proof.
  induction fuel as [|fuel IH]; intros s s' Hloop; [done|].
  simpl in Hloop. apply bind_Ok in Hloop as (t & Hstep & Hloop).
  apply clearExpired_step_mono in Hstep as (Hm & Hi & Hn & Hr).
  destruct t as [s1|s1]; simpl in *.
  - by inversion Hloop; subst.
  - apply IH in Hloop as (Hm' & Hi' & Hn' & Hr').
    split_and!; [by etrans|by etrans|congruence|lia].
Qed.

(** An entry that is later than every coming clock reading stays. *)
Lemma clearExpired_loop_keeps fuel : forall s s' k p it,
  wf s -> horizon_covers s ->
  clearExpired_loop clock fuel s = Ok s' ->
  internal_map_ s !! k = Some p -> items s !! p = Some it ->
  (forall n, (clock_reads s <= n)%nat -> expire_ it > clock n) ->
  internal_map_ s' !! k = Some p /\ items s' !! p = Some it.
Proof.
  induction fuel as [|fuel IH]; intros s s' k p it Hwf Hcov Hloop Hk Hit Hlive;
    [done|].
  simpl in Hloop. apply bind_Ok in Hloop as (t & Hstep & Hloop).
  destruct (clearExpired_step_wf s t Hwf Hcov Hstep) as [Hwf' Hcov'].
  destruct (clearExpired_step_keeps s t k p it Hwf Hstep Hk Hit) as [Hk' Hit'].
  { apply Hlive. lia. }
  apply clearExpired_step_mono in Hstep as (_ & _ & _ & Hr).
  destruct t as [s1|s1]; simpl in *.
  - by inversion Hloop; subst.
  - eapply IH; eauto. intros n Hn. apply Hlive. lia.
Qed.

(** *** [put] *)

Lemma put_Ok key value ms s s' :
  put clock key value ms s = Ok s' <->
  in_long (clock (clock_reads s) + ms) /\
  exists q,
    pq_push (ItemCompare (inserted clock key value (clock (clock_reads s) + ms) s))
      (expired_queue_ s) (next_item s) = Ok q /\
    clearExpired clock
      (set_queue q (inserted clock key value (clock (clock_reads s) + ms) s))
    = Ok s'.
Proof.
  unfold put, inserted, long_add. simpl. split.
  - case_decide as Hlong; [|done]. simpl.
    intros (q & Hq & Hloop)%bind_Ok. simpl in Hq.
    rewrite map_erase_queue in Hq. simpl in Hq. eauto.
  - intros (Hlong & q & Hq & Hloop). rewrite decide_True by done. simpl.
    apply bind_Ok. exists q. split; [|done].
    simpl. rewrite map_erase_queue. done.
Qed.

Lemma put_fuel key value ms s : put clock key value ms s ≠ OutOfFuel.
Proof.
  unfold put, long_add. simpl. case_decide; [|done]. simpl.
  apply bind_fuel; [apply pq_push_fuel, ItemCompare_fuel|].
  intros q _. apply clearExpired_loop_fuel. lia.
Qed.

Lemma inserted_queue key value e s :
  expired_queue_ (inserted clock key value e s) = expired_queue_ s.
Proof. unfold inserted. simpl. by rewrite map_erase_queue. Qed.

Lemma inserted_map key value e s :
  internal_map_ (inserted clock key value e s) =
  <[key := next_item s]> (internal_map_ s).
Proof.
  unfold inserted. simpl. rewrite map_erase_map. simpl.
  by rewrite insert_delete_eq.
Qed.

Lemma inserted_next key value e s :
  next_item (inserted clock key value e s) = S (next_item s).
Proof. unfold inserted. simpl. by rewrite map_erase_next. Qed.

Lemma inserted_reads key value e s :
  clock_reads (inserted clock key value e s) = S (clock_reads s).
Proof. unfold inserted. simpl. by rewrite map_erase_reads. Qed.

Lemma inserted_items key value e s p :
  wf s ->
  items (inserted clock key value e s) !! p =
  if decide (p = next_item s) then Some (mkItem key value e)
  else if decide (internal_map_ s !! key = Some p) then None
  else items s !! p.
Proof.
  intros Hwf. unfold inserted. simpl. rewrite map_erase_items. simpl.
  destruct (internal_map_ s !! key) as [old|] eqn:Eold.
  - assert (old ≠ next_item s) as Hne.
    { destruct (wf_owned s Hwf key old Eold) as (it & Hit & _).
      pose proof (wf_items_fresh s Hwf old ltac:(eauto)). lia. }
    case_decide as Hp.
    + subst p. rewrite lookup_delete_ne by done. by rewrite lookup_insert_eq.
    + case_decide as Hold.
      * inversion Hold; subst. by rewrite lookup_delete_eq.
      * rewrite lookup_delete_ne by congruence.
        by rewrite lookup_insert_ne.
  - case_decide as Hp.
    + subst p. by rewrite lookup_insert_eq.
    + rewrite decide_False by done. by rewrite lookup_insert_ne.
Qed.

Lemma wf_inserted key value e s : wf s -> wf (inserted clock key value e s).
Proof.
  intros Hwf. split.
  - intros k p. rewrite inserted_map, inserted_items by done.
    intros [[<- <-]|[Hne Hk]]%lookup_insert_Some.
    + rewrite decide_True by done. eauto.
    + destruct (wf_owned s Hwf k p Hk) as (it & Hit & Hkey).
      pose proof (wf_items_fresh s Hwf p ltac:(eauto)).
      rewrite decide_False by lia. rewrite decide_False; [eauto|].
      intros Hold. destruct (wf_owned s Hwf key p Hold) as (? & ? & ?).
      congruence.
  - intros p it. rewrite inserted_map, inserted_items by done.
    case_decide as Hp.
    + intros [= <-]. subst p. simpl. by rewrite lookup_insert_eq.
    + case_decide as Hold; [done|]. intros Hit.
      pose proof (wf_alive s Hwf p it Hit) as Hk.
      rewrite lookup_insert_ne; [done|]. intros Heq. by rewrite <-Heq in Hk.
  - intros p. rewrite inserted_items, inserted_next by done.
    case_decide as Hp; [lia|]. case_decide; [by intros [? ?]|].
    intros Hit. pose proof (wf_items_fresh s Hwf p Hit). lia.
  - intros p. rewrite inserted_queue, inserted_next. intros Hp.
    pose proof (wf_queue_fresh s Hwf p Hp). lia.
Qed.

Lemma pushed_wf key value e s q :
  wf s -> horizon_covers s ->
  q ≡ₚ next_item s :: expired_queue_ s ->
  wf (set_queue q (inserted clock key value e s)) /\
  horizon_covers (set_queue q (inserted clock key value e s)).
Proof.
  intros Hwf Hcov Hq. split.
  - apply wf_set_queue_fresh; [by apply wf_inserted|].
    intros p. rewrite Hq, inserted_next. intros [->|Hp]%elem_of_cons.
    + lia.
    + pose proof (wf_queue_fresh s Hwf p Hp). lia.
  - intros k p. unfold set_queue; cbn [internal_map_ expired_queue_].
    rewrite inserted_map, Hq.
    intros [[<- <-]|[Hne Hk]]%lookup_insert_Some; [by left|].
    right. by eapply Hcov.
Qed.

Lemma put_wf key value ms s s' :
  wf s -> horizon_covers s ->
  put clock key value ms s = Ok s' ->
  wf s' /\ horizon_covers s'.
Proof.
  intros Hwf Hcov (Hlong & q & Hq%pq_push_perm & Hloop)%put_Ok.
  destruct (pushed_wf key value (clock (clock_reads s) + ms) s q)
    as [Hwf' Hcov']; [done..|].
  by eapply clearExpired_loop_wf.
Qed.

(** What [put] leaves under [key] is the entry it made, if anything. *)
Lemma put_entry key value ms s s' it :
  wf s -> horizon_covers s ->
  put clock key value ms s = Ok s' ->
  entry s' key = Some it ->
  it = mkItem key value (clock (clock_reads s) + ms).
Proof.
  intros Hwf Hcov Hput (p & Hk & Hit)%entry_Some.
  apply put_Ok in Hput as (Hlong & q & Hq%pq_push_perm & Hloop).
  apply clearExpired_loop_mono in Hloop as (Hm & Hi & _ & _).
  members.
  eapply lookup_weaken in Hk; [|exact Hm].
  eapply lookup_weaken in Hit; [|exact Hi].
  rewrite inserted_map, lookup_insert_eq in Hk. simplify_eq.
  rewrite inserted_items, decide_True in Hit by done. congruence.
Qed.

(** An entry that [put] makes later than every coming clock reading is
    there when [put] returns. *)
Lemma put_keeps key value ms s s' :
  wf s -> horizon_covers s ->
  put clock key value ms s = Ok s' ->
  (forall n, (clock_reads s <= n)%nat -> clock n < clock (clock_reads s) + ms) ->
  entry s' key = Some (mkItem key value (clock (clock_reads s) + ms)).
Proof.
  intros Hwf Hcov (Hlong & q & Hq%pq_push_perm & Hloop)%put_Ok Hlive.
  destruct (pushed_wf key value (clock (clock_reads s) + ms) s q)
    as [Hwf' Hcov']; [done..|].
  apply entry_Some. exists (next_item s).
  eapply clearExpired_loop_keeps; [exact Hwf'|exact Hcov'|exact Hloop| | |].
  - members. by rewrite inserted_map, lookup_insert_eq.
  - members. by rewrite inserted_items, decide_True.
  - members. rewrite inserted_reads. intros n Hn.
    specialize (Hlive n ltac:(lia)). simpl. lia.
Qed.

(** *** [clear] *)

Lemma clear_loop_Ok fuel : forall s s',
  clear_loop fuel s = Ok s' -> expired_queue_ s' = [].
Proof.
  induction fuel as [|fuel IH]; intros s s' Hloop; [done|].
  simpl in Hloop. destruct (expired_queue_ s) as [|w rest] eqn:Eq; simpl in *.
  - by inversion Hloop; subst.
  - apply bind_Ok in Hloop as (q & _ & Hloop). by eapply IH.
Qed.

Lemma clear_loop_fuel fuel : forall s,
  (length (expired_queue_ s) < fuel)%nat ->
  clear_loop fuel s ≠ OutOfFuel.
Proof.
  induction fuel as [|fuel IH]; intros s Hfuel; [lia|]. simpl.
  destruct (expired_queue_ s) as [|w rest] eqn:Eq; [done|]. simpl.
  apply bind_fuel; [apply pq_pop_fuel, ItemCompare_fuel|].
  intros q Hq%pq_pop_perm. apply IH. simpl.
  apply Permutation_length in Hq. simpl in Hfuel. lia.
Qed.

(** *** Counting *)

Lemma store_le_horizon s :
  wf s -> horizon_covers s ->
  (base.size (internal_map_ s) <= length (expired_queue_ s))%nat.
Proof.
  intros Hwf Hcov.
  rewrite <-length_map_to_list, <-(length_fmap snd).
  apply submseteq_length, NoDup_submseteq.
  - apply NoDup_fmap_2_strong; [|apply NoDup_map_to_list].
    intros [k1 p1] [k2 p2] H1%elem_of_map_to_list H2%elem_of_map_to_list.
    simpl. intros <-.
    destruct (wf_owned s Hwf k1 p1 H1) as (it1 & Hit1 & <-).
    destruct (wf_owned s Hwf k2 p1 H2) as (it2 & Hit2 & <-).
    congruence.
  - intros p ([k p'] & -> & Hk%elem_of_map_to_list)%list_elem_of_fmap.
    by eapply Hcov.
Qed.

(** *** The reading operations leave the container alone *)

Lemma deref_fuel s p : deref s p ≠ OutOfFuel.
Proof. unfold deref. by destruct (items s !! p). Qed.

Lemma get_state key s v s' :
  get V_default clock key s = Ok (v, s') ->
  s' = s \/ s' = (current_time clock s).2.
Proof.
  unfold get. destruct (internal_map_ s !! key) as [p|].
  - intros (it & _ & [= _ <-])%bind_Ok. by right.
  - intros [= _ <-]. by left.
Qed.

Lemma left_state key s d s' :
  left clock key s = Ok (d, s') ->
  s' = s \/ s' = (current_time clock s).2.
Proof.
  unfold left. destruct (internal_map_ s !! key) as [p|].
  - intros (it & _ & Hd)%bind_Ok. simpl in Hd.
    apply bind_Ok in Hd as (d' & _ & [= _ <-]). by right.
  - intros [= _ <-]. by left.
Qed.

Lemma keys_state s ks s' :
  keys K_lt clock s = Ok (ks, s') -> s' = (current_time clock s).2.
Proof.
  unfold keys. simpl. intros (l & _ & (l' & _ & [= _ <-])%bind_Ok)%bind_Ok.
  done.
Qed.

Lemma sort_insert_fuel {A} (comp : A -> A -> result bool) x l :
  (forall a b, comp a b ≠ OutOfFuel) -> sort_insert comp x l ≠ OutOfFuel.
Proof.
  intros Hcomp. induction l as [|y l IH]; [done|]. simpl.
  apply bind_fuel; [apply Hcomp|]. intros [] _; [done|].
  by apply bind_fuel.
Qed.

Lemma std_sort_fuel {A} (comp : A -> A -> result bool) l :
  (forall a b, comp a b ≠ OutOfFuel) -> std_sort comp l ≠ OutOfFuel.
Proof.
  intros Hcomp. induction l as [|y l IH]; [done|]. simpl.
  apply bind_fuel; [done|]. intros r _. by apply sort_insert_fuel.
Qed.

Lemma live_keys_fuel s t l : live_keys s t l ≠ OutOfFuel.
Proof.
  induction l as [|[k p] l IH]; [done|]. simpl.
  apply bind_fuel; [apply deref_fuel|]. intros it _.
  by apply bind_fuel.
Qed.

Lemma keys_compare_fuel s a b : keys_compare K_lt s a b ≠ OutOfFuel.
Proof.
  assert (forall k, expire_of s k ≠ OutOfFuel) as He.
  { intros k. unfold expire_of. destruct (internal_map_ s !! k); [|done].
    apply bind_fuel; [apply deref_fuel|done]. }
  unfold keys_compare. apply bind_fuel; [apply He|]. intros ea _.
  apply bind_fuel; [apply He|done].
Qed.

Lemma run_fuel (o : op) s : run K_lt V_default clock o s ≠ OutOfFuel.
Proof.
  destruct o as [key value ms|key| |key|key| |]; simpl.
  - apply put_fuel.
  - apply bind_fuel; [|done]. unfold get.
    destruct (internal_map_ s !! key); [|done].
    apply bind_fuel; [apply deref_fuel|done].
  - apply bind_fuel; [|done]. unfold keys. simpl.
    apply bind_fuel; [apply live_keys_fuel|]. intros l _.
    apply bind_fuel; [|done]. apply std_sort_fuel, keys_compare_fuel.
  - apply bind_fuel; [|done]. unfold left.
    destruct (internal_map_ s !! key); [|done].
    apply bind_fuel; [apply deref_fuel|]. intros it _. simpl.
    apply bind_fuel; [|done]. unfold long_sub. by case_decide.
  - done.
  - unfold clear. apply bind_fuel; [|done]. apply clear_loop_fuel. lia.
  - apply bind_fuel; [|done]. unfold size.
    apply bind_fuel; [|done]. apply clearExpired_loop_fuel. lia.
Qed.

Lemma run_wf (o : op) s s' :
  wf s -> horizon_covers s ->
  run K_lt V_default clock o s = Ok s' ->
  wf s' /\ horizon_covers s'.
Proof.
  intros Hwf Hcov. destruct o as [key value ms|key| |key|key| |]; simpl.
  - by apply put_wf.
  - intros ([v s1] & [->| ->]%get_state & [= <-])%bind_Ok; simpl; [done|].
    split; [by apply wf_current_time|done].
  - intros ([ks s1] & ->%keys_state & [= <-])%bind_Ok; simpl.
    split; [by apply wf_current_time|done].
  - intros ([d s1] & [->| ->]%left_state & [= <-])%bind_Ok; simpl; [done|].
    split; [by apply wf_current_time|done].
  - intros [= <-]. split; [by apply wf_map_erase|].
    by apply horizon_covers_map_erase.
  - unfold clear. intros (s1 & Hq%clear_loop_Ok & [= <-])%bind_Ok.
    split; [split|]; simpl.
    + intros k p. by rewrite lookup_empty.
    + intros p it. by rewrite lookup_empty.
    + intros p [it Hit]. by rewrite lookup_empty in Hit.
    + rewrite Hq. intros p Hp. by apply elem_of_nil in Hp.
    + intros k p. simpl. by rewrite lookup_empty.
  - unfold size.
    intros ([n s1] & (s2 & Hloop & [= _ <-])%bind_Ok & [= <-])%bind_Ok.
    by eapply clearExpired_loop_wf.
Qed.

(** *** [keys] *)

Lemma live_keys_Ok s t l :
  (forall k p, (k, p) ∈ l -> is_Some (items s !! p)) ->
  exists ks, live_keys s t l = Ok ks /\
    (forall k, k ∈ ks <->
       exists p it, (k, p) ∈ l /\ items s !! p = Some it /\ expire_ it > t) /\
    (NoDup l.*1 -> NoDup ks).
Proof.
  induction l as [|[k p] l IH]; intros Hl.
  { exists []. split_and!; [done| |by constructor].
    intros k. split; [by intros ?%elem_of_nil|].
    by intros (p & it & ?%elem_of_nil & _). }
  destruct IH as (ks & Hks & Hmem & Hnodup).
  { intros k' p' Hin. apply (Hl k' p'). by right. }
  destruct (Hl k p ltac:(by left)) as [it Hit].
  simpl. rewrite (proj2 (deref_Ok s p it) Hit). simpl. rewrite Hks. simpl.
  eexists. split; [done|]. case_bool_decide as Hlive; split.
  - intros k'. rewrite elem_of_cons, Hmem. split.
    + intros [->|(p' & it' & Hin & Hit' & Hlive')].
      * exists p, it. split_and!; [by left|done|done].
      * exists p', it'. split_and!; [by right|done|done].
    + intros (p' & it' & [[= -> ->]|Hin]%elem_of_cons & Hit' & Hlive');
        [by left|]. right. eauto.
  - simpl. intros [Hk Hnd]%NoDup_cons. apply NoDup_cons. split; [|auto].
    intros (p' & it' & Hin & _)%Hmem. apply Hk.
    apply list_elem_of_fmap. by exists (k, p').
  - intros k'. rewrite Hmem. split.
    + intros (p' & it' & Hin & Hit' & Hlive').
      exists p', it'. split_and!; [by right|done|done].
    + intros (p' & it' & [[= -> ->]|Hin]%elem_of_cons & Hit' & Hlive').
      * simplify_eq. lia.
      * eauto.
  - simpl. intros [Hk Hnd]%NoDup_cons. auto.
Qed.

Lemma keys_compare_Ok s a b :
  wf s -> is_Some (internal_map_ s !! a) -> is_Some (internal_map_ s !! b) ->
  keys_compare K_lt s a b = Ok (key_before_b K_lt s a b).
Proof.
  intros Hwf [pa Ha] [pb Hb].
  destruct (wf_owned s Hwf a pa Ha) as (ia & Hia & _).
  destruct (wf_owned s Hwf b pb Hb) as (ib & Hib & _).
  unfold keys_compare, key_before_b, expire_of, entry.
  rewrite Ha, Hb. simpl.
  rewrite (proj2 (deref_Ok s pa ia) Hia), (proj2 (deref_Ok s pb ib) Hib).
  simpl. by rewrite Hia, Hib.
Qed.

Lemma key_before_b_true s a b :
  key_before_b K_lt s a b = true <-> key_before K_lt s a b.
Proof.
  unfold key_before_b, key_before.
  destruct (entry s a) as [ia|], (entry s b) as [ib|];
    try (split; [done|by intros (? & ? & ? & ? & _)]).
  case_bool_decide as Hne.
  - rewrite bool_decide_eq_true. split.
    + intros Hlt. exists ia, ib. auto.
    + intros (? & ? & [= <-] & [= <-] & [?|[? _]]); [done|lia].
  - split.
    + intros Hlt. exists ia, ib. split_and!; [done|done|].
      right. split; [lia|done].
    + intros (? & ? & [= <-] & [= <-] & [?|[_ ?]]); [lia|done].
Qed.

Lemma StronglySorted_weaken {A} (R1 R2 : A -> A -> Prop) l :
  (forall a b, R1 a b -> R2 a b) -> StronglySorted R1 l -> StronglySorted R2 l.
Proof.
  intros Himpl. induction 1 as [|a l Hs IH Hall]; constructor; [done|].
  eapply Forall_impl; [exact Hall|]. auto.
Qed.

Lemma keys_unfold s :
  keys K_lt clock s =
  ks ← live_keys (current_time clock s).2 (clock (clock_reads s))
         (map_to_list (internal_map_ s));
  ks ← std_sort (keys_compare K_lt (current_time clock s).2) ks;
  Ok (ks, (current_time clock s).2).
Proof. done. Qed.

Lemma keys_Ok s :
  wf s ->
  exists ks,
    keys K_lt clock s = Ok (ks, (current_time clock s).2) /\
    (forall k, k ∈ ks <->
       exists it, entry s k = Some it /\ expire_ it > clock (clock_reads s)) /\
    NoDup ks /\
    ((forall a b c, K_lt a b = true -> K_lt b c = true -> K_lt a c = true) ->
     (forall a b, a ≠ b -> K_lt a b = true \/ K_lt b a = true) ->
     StronglySorted (key_before K_lt s) ks).
Proof.
  intros Hwf. rewrite keys_unfold.
  set (s1 := (current_time clock s).2).
  assert (wf s1) as Hwf1 by by apply wf_current_time.
  destruct (live_keys_Ok s1 (clock (clock_reads s))
              (map_to_list (internal_map_ s))) as (l & Hl & Hmem & Hnodup).
  { intros k p Hin%elem_of_map_to_list.
    destruct (wf_owned s Hwf k p Hin) as (it & Hit & _). eauto. }
  assert (forall k, k ∈ l -> is_Some (internal_map_ s !! k)) as Hdom.
  { intros k (p & it & Hin%elem_of_map_to_list & _)%Hmem. eauto. }
  destruct (std_sort_sorted (keys_compare K_lt s1) (key_before_b K_lt s) l)
    as (ks & Hks & Hperm & Hsorted).
  { intros a b Ha Hb. apply (keys_compare_Ok s1); auto. }
  exists ks. rewrite Hl. simpl. rewrite Hks. simpl.
  split_and!; [done| | |].
  - intros k. rewrite Hperm, Hmem. split.
    + intros (p & it & Hin%elem_of_map_to_list & Hit & Hlive).
      exists it. split; [|done]. apply entry_Some. eauto.
    + intros (it & (p & Hk & Hit)%entry_Some & Hlive).
      exists p, it. split_and!; [|done|done]. by apply elem_of_map_to_list.
  - rewrite Hperm. apply Hnodup, NoDup_fst_map_to_list.
  - intros Htrans Htotal.
    apply (StronglySorted_weaken (fun a b => key_before_b K_lt s a b = true)).
    { intros a b. apply key_before_b_true. }
    apply Hsorted; [| |by apply Hnodup, NoDup_fst_map_to_list].
    + intros a b c (ia & ib & Ha & Hb & Hab)%key_before_b_true
        (ib' & ic & Hb' & Hc & Hbc)%key_before_b_true.
      apply key_before_b_true. exists ia, ic. simplify_eq.
      split_and!; [done|done|].
      destruct Hab as [?|[? ?]], Hbc as [?|[? ?]];
        [left; lia|left; lia|left; lia|].
      right. split; [lia|]. by eapply Htrans.
    + intros a b [pa Ha]%Hdom [pb Hb]%Hdom Hne Hfalse.
      destruct (wf_owned s Hwf a pa Ha) as (ia & Hia & _).
      destruct (wf_owned s Hwf b pb Hb) as (ib & Hib & _).
      apply key_before_b_true. exists ib, ia.
      split_and!; [apply entry_Some; eauto|apply entry_Some; eauto|].
      unfold key_before_b, entry in Hfalse.
      rewrite Ha, Hb in Hfalse. simpl in Hfalse. rewrite Hia, Hib in Hfalse.
      case_bool_decide as Hexp.
      * apply bool_decide_eq_false in Hfalse. left. lia.
      * right. split; [lia|]. destruct (Htotal a b Hne); congruence.
Qed.

Lemma reachable_wf s :
  reachable K_lt V_default clock s -> wf s /\ horizon_covers s.
Proof.
  induction 1 as [|o s s' _ [Hwf Hcov] Hrun].
  - split; [apply wf_empty_map|]. intros k p. simpl. by rewrite lookup_empty.
  - by eapply run_wf.
Qed.

(** *** Runs on a tidy horizon complete *)

Lemma ItemCompare_defined s lhs rhs :
  is_Some (lock s lhs) -> is_Some (lock s rhs) ->
  is_Ok (ItemCompare s lhs rhs).
Proof.
  unfold lock, ItemCompare, deref. intros [l ->] [r ->]. by eexists.
Qed.

Lemma clearExpired_step_defined s :
  wf s -> tidy s ->
  exists t, clearExpired_step clock s = Ok t /\ tidy (turn_state t).
Proof.
  intros Hwf [Hnodup Hlive]. unfold clearExpired_step.
  destruct (expired_queue_ s) as [|w rest] eqn:Eq.
  { eexists. split; [done|]. split; simpl; rewrite Eq; [done|].
    intros p Hp. by apply elem_of_nil in Hp. }
  cbn [pq_empty]. change (pq_top (w :: rest)) with (Ok w).
  rewrite bind_Ok_l.
  destruct (Hlive w ltac:(by left)) as [it Hit]. rewrite Hit.
  cbn [current_time]. case_bool_decide as Hdue.
  { eexists. split; [done|]. split; simpl; rewrite Eq; [done|].
    intros p Hp. by apply Hlive. }
  apply NoDup_cons in Hnodup as [Hw Hnodup].
  match goal with |- context [map_erase ?k ?s0] => set (s2 := map_erase k s0) end.
  assert (items s2 = delete w (items s)) as Hitems.
  { unfold s2. rewrite map_erase_items. simpl.
    by rewrite (wf_alive s Hwf w it Hit). }
  assert (expired_queue_ s2 = w :: rest) as Hqueue.
  { unfold s2. by rewrite map_erase_queue. }
  assert (forall p, p ∈ rest -> is_Some (lock s2 p)) as Hrest.
  { intros p Hp. unfold lock. rewrite Hitems, lookup_delete_ne.
    - apply Hlive. by right.
    - intros ->. done. }
  rewrite Hqueue.
  destruct (pq_pop_defined (ItemCompare s2) (fun p => is_Some (lock s2 p))
              (ItemCompare_defined s2) w rest Hrest) as [q Hq].
  rewrite Hq, bind_Ok_l. eexists. split; [done|].
  apply pq_pop_perm in Hq. split; simpl.
  - by rewrite Hq.
  - intros p Hp. rewrite Hq in Hp. by apply Hrest.
Qed.

Lemma clearExpired_loop_defined fuel : forall s,
  (length (expired_queue_ s) < fuel)%nat ->
  wf s -> horizon_covers s -> tidy s ->
  exists s', clearExpired_loop clock fuel s = Ok s' /\ tidy s'.
Proof.
  induction fuel as [|fuel IH]; intros s Hfuel Hwf Hcov Htidy; [lia|].
  simpl. destruct (clearExpired_step_defined s Hwf Htidy) as (t & Hstep & Ht).
  rewrite Hstep, bind_Ok_l.
  destruct (clearExpired_step_wf s t Hwf Hcov Hstep) as [Hwf' Hcov'].
  destruct t as [s1|s1]; simpl in *; [by eexists|].
  apply IH; [|done..].
  apply clearExpired_step_shrinks in Hstep as [Hlen _]. lia.
Qed.

(** [put] of a key that is not in the store, on a tidy horizon. *)
Lemma put_defined key value ms s :
  wf s -> horizon_covers s -> tidy s ->
  internal_map_ s !! key = None ->
  in_long (clock (clock_reads s) + ms) ->
  exists s', put clock key value ms s = Ok s' /\ tidy s'.
Proof.
  intros Hwf Hcov [Hnodup Hlive] Hnew Hlong.
  set (mid := inserted clock key value (clock (clock_reads s) + ms) s).
  assert (forall p, is_Some (lock mid p) <->
                    p = next_item s \/ is_Some (lock s p)) as Hmid.
  { intros p. unfold lock, mid. rewrite inserted_items by done.
    case_decide as Hp; [by split; eauto|].
    rewrite decide_False by congruence. split; [eauto|].
    by intros [?|?]. }
  destruct (pq_push_defined (ItemCompare mid) (fun p => is_Some (lock mid p))
              (ItemCompare_defined mid) (expired_queue_ s) (next_item s))
    as [q Hq].
  { apply Hmid. by left. }
  { intros p Hp. apply Hmid. right. by apply Hlive. }
  pose proof (pq_push_perm _ _ _ _ Hq) as Hperm.
  destruct (pushed_wf key value (clock (clock_reads s) + ms) s q Hwf Hcov Hperm)
    as [Hwf' Hcov'].
  destruct (clearExpired_loop_defined
              (S (length (expired_queue_ (set_queue q mid))))
              (set_queue q mid)) as (s' & Hloop & Htidy); [lia|done|done| |].
  { split; members.
    - rewrite Hperm. apply NoDup_cons. split; [|done].
      intros Hin. pose proof (wf_queue_fresh s Hwf _ Hin). lia.
    - intros p Hp. rewrite Hperm in Hp. apply (Hmid p).
      apply elem_of_cons in Hp as [->|Hp]; [by left|].
      right. by apply Hlive. }
  exists s'. split; [|done]. apply put_Ok. split; [done|].
  exists q. split; [done|]. exact Hloop.
Qed.

Lemma size_defined s :
  wf s -> horizon_covers s -> tidy s ->
  exists n s', size clock s = Ok (n, s') /\ tidy s'.
Proof.
  intros Hwf Hcov Htidy. unfold size, clearExpired.
  destruct (clearExpired_loop_defined (S (length (expired_queue_ s))) s)
    as (s' & -> & Htidy'); [lia|done..|].
  rewrite bind_Ok_l. eauto.
Qed.

(** *** Runs on a container in order keep it in order *)

Ltac split_orderly := split; [|split; [|split]].

Lemma ItemCompare_prio s lhs rhs :
  is_Some (lock s lhs) -> is_Some (lock s rhs) ->
  ItemCompare s lhs rhs
  = Ok (bool_decide (expire_at s lhs > expire_at s rhs)).
Proof.
  unfold expire_at, lock, ItemCompare, deref. by intros [l ->] [r ->].
Qed.

Lemma clearExpired_step_sorted s t :
  wf s -> tidy s -> horizon_sorted s ->
  clearExpired_step clock s = Ok t ->
  horizon_sorted (turn_state t).
Proof.
  intros Hwf [Hnodup Hlive] Hheap. unfold clearExpired_step.
  destruct (expired_queue_ s) as [|w rest] eqn:Eq.
  { intros [= <-]. done. }
  cbn [pq_empty]. change (pq_top (w :: rest)) with (Ok w).
  rewrite bind_Ok_l.
  destruct (Hlive w ltac:(by left)) as [it Hit]. rewrite Hit.
  cbn [current_time]. case_bool_decide as Hdue.
  { intros [= <-]. done. }
  apply NoDup_cons in Hnodup as [Hw Hnodup].
  match goal with |- context [map_erase ?k ?s0] => set (s2 := map_erase k s0) end.
  assert (items s2 = delete w (items s)) as Hitems.
  { unfold s2. rewrite map_erase_items. simpl.
    by rewrite (wf_alive s Hwf w it Hit). }
  assert (expired_queue_ s2 = w :: rest) as Hqueue.
  { unfold s2. by rewrite map_erase_queue. }
  assert (forall p, p ∈ rest -> lock s2 p = lock s p) as Hsame.
  { intros p Hp. unfold lock. rewrite Hitems, lookup_delete_ne; [done|].
    intros ->. done. }
  rewrite Hqueue. intros (q & Hq & [= <-])%bind_Ok.
  unfold horizon_sorted. members.
  change (expire_at (set_queue q s2)) with (expire_at s2).
  eapply (pq_pop_ordered (ItemCompare s2) (expire_at s2)
            (fun p => is_Some (lock s2 p))); [| | |exact Hq].
  - apply ItemCompare_prio.
  - intros p Hp. rewrite Hsame by done. apply Hlive. by right.
  - intros j Hj Hne Hpne. unfold horizon_sorted in Hheap.
    rewrite Eq in Hheap. specialize (Hheap j Hj).
    destruct j as [|j]; [done|].
    destruct ((S j - 1) / 2)%nat as [|i] eqn:Hi; [done|].
    unfold prio_at in *. simpl in *.
    assert (forall i, from_option (expire_at s2) 0 (rest !! i)
                      = from_option (expire_at s) 0 (rest !! i)) as Hext.
    { intros i'. destruct (rest !! i') as [p|] eqn:Hp; [simpl|done].
      unfold expire_at. rewrite Hsame; [done|].
      by eapply list_elem_of_lookup_2. }
    by rewrite !Hext.
Qed.

Lemma clearExpired_step_orderly s t :
  orderly s -> clearExpired_step clock s = Ok t -> orderly (turn_state t).
Proof.
  intros (Hwf & Hcov & Htidy & Hheap) Hstep.
  destruct (clearExpired_step_wf s t Hwf Hcov Hstep) as [Hwf' Hcov'].
  destruct (clearExpired_step_defined s Hwf Htidy) as (t' & Hstep' & Htidy').
  rewrite Hstep in Hstep'. inversion Hstep'; subst t'.
  split_orderly; [done..|].
  exact (clearExpired_step_sorted s t Hwf Htidy Hheap Hstep).
Qed.

Lemma clearExpired_loop_orderly fuel : forall s s',
  orderly s -> clearExpired_loop clock fuel s = Ok s' -> orderly s'.
Proof.
  induction fuel as [|fuel IH]; intros s s' Hord Hloop; [done|].
  simpl in Hloop. apply bind_Ok in Hloop as (t & Hstep & Hloop).
  pose proof (clearExpired_step_orderly s t Hord Hstep) as Hord'.
  destruct t as [s1|s1]; simpl in *.
  - by inversion Hloop; subst.
  - by eapply IH.
Qed.

(** At a clock that stands still, whatever [clearExpired] leaves in the
    store of a container in order is not yet due. *)
Lemma clearExpired_loop_live (now : Z) fuel : forall s s',
  (forall n, clock n = now) ->
  orderly s -> clearExpired_loop clock fuel s = Ok s' ->
  forall k it, entry s' k = Some it -> expire_ it > now.
Proof.
  induction fuel as [|fuel IH]; intros s s' Hclock Hord Hloop; [done|].
  simpl in Hloop. apply bind_Ok in Hloop as (t & Hstep & Hloop).
  pose proof (clearExpired_step_orderly s t Hord Hstep) as Hord'.
  destruct Hord as (Hwf & Hcov & [Hnodup Hlive] & Hheap).
  destruct t as [s1|s1]; simpl in *; [|by eapply IH].
  inversion Hloop; subst s1; clear Hloop.
  apply clearExpired_step_Ok in Hstep
    as [[Hnil [= ->]]|[(w & rest & it0 & Hq & Hit0 & Hlater & [= ->])|
    [(? & ? & ? & ? & _ & _ & _ & _ & [=])|(? & ? & ? & _ & _ & _ & [=])]]].
  - intros k it (p & Hk & _)%entry_Some.
    specialize (Hcov k p Hk). rewrite Hnil in Hcov. by apply elem_of_nil in Hcov.
  - intros k it (p & Hk & Hit)%entry_Some. simpl in Hk, Hit.
    specialize (Hcov k p Hk).
    apply list_elem_of_lookup_1 in Hcov as [j Hj].
    pose proof (heap_root_min _ _ _ Hheap j (lookup_lt_Some _ _ _ Hj)) as Hmin.
    unfold prio_at in Hmin. rewrite Hj, Hq in Hmin. simpl in Hmin.
    unfold expire_at, lock in Hmin. rewrite Hit0, Hit in Hmin. simpl in Hmin.
    rewrite Hclock in Hlater. lia.
Qed.

(** [put] of a new key keeps a container in order, and completes. *)
Lemma put_orderly key value ms s :
  orderly s ->
  internal_map_ s !! key = None ->
  in_long (clock (clock_reads s) + ms) ->
  exists s', put clock key value ms s = Ok s' /\ orderly s'.
Proof.
  intros (Hwf & Hcov & Htidy & Hheap) Hnew Hlong.
  destruct (put_defined key value ms s Hwf Hcov Htidy Hnew Hlong)
    as (s' & Hput & Htidy').
  exists s'. split; [done|].
  pose proof Hput as (_ & q & Hq & Hloop)%put_Ok.
  set (mid := inserted clock key value (clock (clock_reads s) + ms) s) in *.
  pose proof (pq_push_perm _ _ _ _ Hq) as Hperm.
  destruct (pushed_wf key value (clock (clock_reads s) + ms) s q Hwf Hcov Hperm)
    as [Hwf' Hcov'].
  destruct Htidy as [Hnodup Hlive].
  assert (forall p, p ∈ expired_queue_ s -> lock mid p = lock s p) as Hsame.
  { intros p Hp. unfold lock, mid. rewrite inserted_items by done.
    pose proof (wf_queue_fresh s Hwf p Hp).
    rewrite decide_False by lia. by rewrite decide_False by congruence. }
  assert (is_Some (lock mid (next_item s))) as Hnext.
  { unfold lock, mid. rewrite inserted_items, decide_True by done. eauto. }
  eapply clearExpired_loop_orderly; [|exact Hloop].
  split_orderly; [done|done| |].
  - split; members.
    + rewrite Hperm. apply NoDup_cons. split; [|done].
      intros Hin. pose proof (wf_queue_fresh s Hwf _ Hin). lia.
    + intros p Hp. rewrite Hperm in Hp.
      apply elem_of_cons in Hp as [->|Hp]; [done|].
      change (is_Some (lock mid p)). rewrite Hsame by done. by apply Hlive.
  - unfold horizon_sorted. members.
    change (expire_at (set_queue q mid)) with (expire_at mid).
    eapply (pq_push_ordered (ItemCompare mid) (expire_at mid)
              (fun p => is_Some (lock mid p))); [| | | |exact Hq].
    + apply ItemCompare_prio.
    + done.
    + intros p Hp. rewrite Hsame by done. by apply Hlive.
    + eapply heap_ordered_ext; [|exact Hheap].
      intros p Hp. unfold expire_at. by rewrite Hsame.
Qed.

Lemma orderly_empty_map : orderly (empty_map : State).
Proof.
  split_orderly.
  - apply wf_empty_map.
  - intros k p. simpl. by rewrite lookup_empty.
  - split; simpl; [constructor|]. intros p Hp. by apply elem_of_nil in Hp.
  - intros j Hj. simpl in Hj. lia.
Qed.

(** On a container in order, at a clock that stands still, [size]
    completes, leaves the container in order and returns the number of keys
    that [keys] returns then. *)
Lemma size_counts_live (now : Z) s :
  orderly s -> (forall n, clock n = now) ->
  exists n s' ks,
    size clock s = Ok (n, s') /\ orderly s' /\
    keys K_lt clock s' = Ok (ks, (current_time clock s').2) /\
    n = length ks.
Proof.
  intros Hord Hclock. pose proof Hord as (Hwf & Hcov & Htidy & Hheap).
  destruct (clearExpired_loop_defined (S (length (expired_queue_ s))) s)
    as (s' & Hloop & _); [lia|done..|].
  pose proof (clearExpired_loop_orderly _ s s' Hord Hloop) as Hord'.
  pose proof (clearExpired_loop_live now _ s s' Hclock Hord Hloop) as Hlive.
  destruct Hord' as (Hwf' & Hcov' & Htidy' & Hheap').
  destruct (keys_Ok s' Hwf') as (ks & Hks & Hmem & Hnodup & _).
  exists (base.size (internal_map_ s')), s', ks.
  split_and!; [|done|done|].
  - unfold size, clearExpired. by rewrite Hloop.
  - rewrite <-length_map_to_list, <-(length_fmap fst).
    apply Permutation_length, NoDup_Permutation;
      [apply NoDup_fst_map_to_list|done|].
    intros k. rewrite Hmem, list_elem_of_fmap. split.
    + intros ([k' p] & -> & Hk%elem_of_map_to_list). simpl.
      destruct (wf_owned s' Hwf' k' p Hk) as (it & Hit & _).
      assert (entry s' k' = Some it) as He by (apply entry_Some; eauto).
      exists it. split; [done|]. rewrite Hclock. by eapply Hlive.
    + intros (it & (p & Hk & _)%entry_Some & _).
      exists (k, p). split; [done|]. by apply elem_of_map_to_list.
Qed.

(** ** The claims *)

(** C3. [get] on a key whose entry is still in the store but has expired
    ([expire_at <= now()]) returns what [get] returns on an absent key, the
    default value of the value type, and in both cases the horizon, the
    store and its entries are as before. *)
Theorem get_expired_like_absent s k1 k2 p it :
  internal_map_ s !! k1 = Some p -> items s !! p = Some it ->
  expire_ it <= clock (clock_reads s) ->
  internal_map_ s !! k2 = None ->
  exists s1 s2,
    get V_default clock k1 s = Ok (V_default, s1) /\
    get V_default clock k2 s = Ok (V_default, s2) /\
    expired_queue_ s1 = expired_queue_ s /\
    internal_map_ s1 = internal_map_ s /\ items s1 = items s /\
    s2 = s.
Proof.
  intros Hk1 Hit Hdue Hk2. unfold get. rewrite Hk1, Hk2.
  rewrite (proj2 (deref_Ok s p it) Hit). simpl.
  rewrite bool_decide_eq_false_2 by lia. eauto 10.
Qed.

(** C4. [keys] returns exactly the keys whose entry has
    [expire_at > now()] at the call, each once, ordered by ascending
    expiration time and, for equal times, by ascending key. *)
Theorem keys_live_sorted s :
  wf s ->
  (forall a b c, K_lt a b = true -> K_lt b c = true -> K_lt a c = true) ->
  (forall a b, a ≠ b -> K_lt a b = true \/ K_lt b a = true) ->
  exists ks,
    keys K_lt clock s = Ok (ks, (current_time clock s).2) /\
    (forall k, k ∈ ks <->
       exists it, entry s k = Some it /\ expire_ it > clock (clock_reads s)) /\
    NoDup ks /\
    StronglySorted (key_before K_lt s) ks.
Proof.
  intros Hwf Htrans Htotal.
  destruct (keys_Ok s Hwf) as (ks & Hks & Hmem & Hnodup & Hsorted).
  exists ks. auto.
Qed.

(** C7. [erase] cannot fail (it is a total function); it removes the entry
    of the key from the store if there is one and changes nothing if there
    is none; the horizon is the same list as before, and the entries of all
    other keys are as before. *)
Theorem erase_frame key s :
  wf s ->
  internal_map_ (erase key s) = delete key (internal_map_ s) /\
  entry (erase key s) key = None /\
  (internal_map_ s !! key = None -> erase key s = s) /\
  expired_queue_ (erase key s) = expired_queue_ s /\
  (forall k, k ≠ key -> entry (erase key s) k = entry s k).
Proof.
  intros Hwf. unfold erase. split_and!.
  - apply map_erase_map.
  - unfold entry. by rewrite map_erase_map, lookup_delete_eq.
  - intros Hnone. unfold map_erase. by rewrite Hnone.
  - apply map_erase_queue.
  - intros k Hne. unfold entry.
    rewrite map_erase_map, map_erase_items, lookup_delete_ne by done.
    destruct (internal_map_ s !! k) as [p|] eqn:Hk; [simpl|done].
    destruct (internal_map_ s !! key) as [old|] eqn:Hold; [|done].
    apply lookup_delete_ne. intros ->.
    destruct (wf_owned s Hwf k p Hk) as (it & Hit & Hkey).
    destruct (wf_owned s Hwf key p Hold) as (it' & Hit' & Hkey').
    congruence.
Qed.

(** C8. The reconciliation loop ends: a turn that goes round again leaves
    the horizon one element shorter and the store no larger, the loop never
    runs out of the turns its horizon allows, and its body is entered at most
    as often as the horizon has elements at entry. *)
Theorem clearExpired_terminates s :
  (forall s', clearExpired_step clock s = Ok (Continue s') ->
     length (expired_queue_ s) = S (length (expired_queue_ s')) /\
     internal_map_ s' ⊆ internal_map_ s) /\
  clearExpired clock s ≠ OutOfFuel /\
  (clearExpired_turns clock (S (length (expired_queue_ s))) s).2
    = clearExpired clock s /\
  ((clearExpired_turns clock (S (length (expired_queue_ s))) s).1
    <= length (expired_queue_ s))%nat.
Proof.
  split_and!.
  - apply clearExpired_step_shrinks.
  - apply clearExpired_loop_fuel. lia.
  - apply clearExpired_turns_loop.
  - apply clearExpired_turns_bound. lia.
Qed.

(** C9. Every operation ([put], [get], [keys], [left], [erase], [clear],
    [size]) keeps the invariant: each entry of the store has a reference in
    the horizon, so the horizon is never shorter than the store is large. *)
Theorem horizon_never_fewer (o : op) s :
  wf s -> horizon_covers s ->
  run K_lt V_default clock o s ≠ OutOfFuel /\
  forall s', run K_lt V_default clock o s = Ok s' ->
    wf s' /\ horizon_covers s' /\
    (base.size (internal_map_ s') <= length (expired_queue_ s'))%nat.
Proof.
  intros Hwf Hcov. split; [apply run_fuel|].
  intros s' Hrun. destruct (run_wf o s s' Hwf Hcov Hrun) as [Hwf' Hcov'].
  split_and!; [done|done|]. by apply store_le_horizon.
Qed.

(** C10. The expiration boundary is exclusive.  For an entry whose
    expiration time equals the clock reading: [get] returns the default
    value, [keys] leaves the key out, and a turn of the reconciliation loop
    that finds the entry on top of the horizon removes it from the store.
    And [put key value 0] never runs on for ever, completes when the key is
    new and the horizon tidy, and whenever it completes, at a clock that has
    not gone back, [get] returns the default value and [keys] leaves the key
    out. *)
Theorem expiry_boundary_exclusive s :
  wf s -> horizon_covers s ->
  (forall k p it,
     internal_map_ s !! k = Some p -> items s !! p = Some it ->
     expire_ it = clock (clock_reads s) ->
     get V_default clock k s = Ok (V_default, (current_time clock s).2) /\
     (exists ks, keys K_lt clock s = Ok (ks, (current_time clock s).2) /\
                 k ∉ ks) /\
     (forall rest t,
        expired_queue_ s = p :: rest -> clearExpired_step clock s = Ok t ->
        exists s', t = Continue s' /\ entry s' k = None)) /\
  (forall k v,
     put clock k v 0 s ≠ OutOfFuel /\
     (tidy s -> internal_map_ s !! k = None ->
      in_long (clock (clock_reads s) + 0) ->
      is_Ok (put clock k v 0 s)) /\
     (forall s1,
        put clock k v 0 s = Ok s1 ->
        clock (clock_reads s) <= clock (clock_reads s1) ->
        (exists s2, get V_default clock k s1 = Ok (V_default, s2)) /\
        (exists ks, keys K_lt clock s1 = Ok (ks, (current_time clock s1).2) /\
                    k ∉ ks))).
Proof.
  intros Hwf Hcov. split.
  - intros k p it Hk Hit Hexp. split_and!.
    + unfold get. rewrite Hk, (proj2 (deref_Ok s p it) Hit). simpl.
      by rewrite bool_decide_eq_false_2 by lia.
    + destruct (keys_Ok s Hwf) as (ks & Hks & Hmem & _).
      exists ks. split; [done|]. rewrite Hmem.
      intros (it' & (p' & Hk' & Hit')%entry_Some & Hlive). simplify_eq. lia.
    + intros rest t Hq
        [[Hnil _]|[(w & rest' & it0 & Hq' & Hit0 & Hlive & _)|
        [(w & rest' & it0 & q & Hq' & Hit0 & Hdue & _ & ->)|
         (w & rest' & q & Hq' & Hit0 & _)]]]%clearExpired_step_Ok.
      * congruence.
      * rewrite Hq in Hq'. inversion Hq'; subst w rest'.
        rewrite Hit in Hit0. inversion Hit0; subst it0. lia.
      * rewrite Hq in Hq'. inversion Hq'; subst w rest'.
        rewrite Hit in Hit0. inversion Hit0; subst it0.
        eexists. split; [done|].
        destruct (wf_owned s Hwf k p Hk) as (it' & Hit' & Hkey).
        rewrite Hit in Hit'. inversion Hit'; subst it'.
        unfold entry. members. rewrite map_erase_map, Hkey. members.
        by rewrite lookup_delete_eq.
      * rewrite Hq in Hq'. inversion Hq'; subst w rest'. congruence.
  - intros k v. split_and!.
    + apply put_fuel.
    + intros Htidy Hnew Hlong.
      destruct (put_defined k v 0 s Hwf Hcov Htidy Hnew Hlong) as (s' & -> & _).
      by eexists.
    + intros s1 Hput Hclock.
      destruct (put_wf k v 0 s s1 Hwf Hcov Hput) as [Hwf1 Hcov1].
      pose proof (fun it => put_entry k v 0 s s1 it Hwf Hcov Hput) as Hentry.
      split.
      * unfold get. destruct (internal_map_ s1 !! k) as [p|] eqn:Hk; [|eauto].
        destruct (wf_owned s1 Hwf1 k p Hk) as (it & Hit & _).
        rewrite (proj2 (deref_Ok s1 p it) Hit). simpl.
        rewrite (Hentry it) by (apply entry_Some; eauto). simpl.
        rewrite bool_decide_eq_false_2 by lia. eauto.
      * destruct (keys_Ok s1 Hwf1) as (ks & Hks & Hmem & _).
        exists ks. split; [done|]. rewrite Hmem.
        intros (it & Hit & Hlive). rewrite (Hentry it Hit) in Hlive.
        simpl in Hlive. lia.
Qed.

(** C6, amended.  When [put key v1 t1] and then [put key v2 t2] both
    complete, and the second expiration time is later than every clock
    reading from the second [put] on, the store holds exactly one entry for
    the key, with value [v2] and the expiration time of the second [put];
    and a [size] that completes counts the entries of a store in which the
    key has that entry. *)
Theorem overwrite_keeps_last key v1 v2 t1 t2 s s1 s2 :
  wf s -> horizon_covers s ->
  put clock key v1 t1 s = Ok s1 ->
  put clock key v2 t2 s1 = Ok s2 ->
  (forall n, (clock_reads s1 <= n)%nat ->
     clock n < clock (clock_reads s1) + t2) ->
  entry s2 key = Some (mkItem key v2 (clock (clock_reads s1) + t2)) /\
  (forall p it, items s2 !! p = Some it -> key_ it = key ->
     internal_map_ s2 !! key = Some p) /\
  size clock s2 ≠ OutOfFuel /\
  (forall n s3, size clock s2 = Ok (n, s3) ->
     entry s3 key = Some (mkItem key v2 (clock (clock_reads s1) + t2)) /\
     n = base.size (internal_map_ s3) /\ (1 <= n)%nat).
Proof.
  intros Hwf Hcov Hput1 Hput2 Hlive.
  destruct (put_wf key v1 t1 s s1 Hwf Hcov Hput1) as [Hwf1 Hcov1].
  destruct (put_wf key v2 t2 s1 s2 Hwf1 Hcov1 Hput2) as [Hwf2 Hcov2].
  pose proof (put_keeps key v2 t2 s1 s2 Hwf1 Hcov1 Hput2 Hlive) as Hentry.
  split_and!.
  - done.
  - intros p it Hit <-. by apply (wf_alive s2 Hwf2).
  - unfold size. apply bind_fuel; [|done]. apply clearExpired_loop_fuel. lia.
  - unfold size. intros n s3 (s3' & Hloop & [= <- <-])%bind_Ok.
    apply entry_Some in Hentry as (p & Hk & Hit).
    assert (clock_reads s1 <= clock_reads s2)%nat as Hreads.
    { apply put_Ok in Hput2 as (_ & q & _ & Hloop2).
      apply clearExpired_loop_mono in Hloop2 as (_ & _ & _ & Hr).
      members. rewrite inserted_reads in Hr. lia. }
    destruct (clearExpired_loop_keeps _ s2 s3' key p _ Hwf2 Hcov2 Hloop Hk Hit)
      as [Hk3 Hit3].
    { simpl. intros n Hn. specialize (Hlive n ltac:(lia)). lia. }
    split_and!; [apply entry_Some; eauto|done|].
    destruct (decide (base.size (internal_map_ s3') = 0%nat)) as [Hz|]; [|lia].
    apply map_size_empty_inv in Hz. rewrite Hz in Hk3.
    by rewrite lookup_empty in Hk3.
Qed.

(** ** Further properties of the operations *)

Lemma put_reads key value ms s s' :
  put clock key value ms s = Ok s' -> (clock_reads s < clock_reads s')%nat.
Proof.
  intros (_ & q & _ & Hloop)%put_Ok.
  apply clearExpired_loop_mono in Hloop as (_ & _ & _ & Hr).
  members. rewrite inserted_reads in Hr. lia.
Qed.

Lemma pushed_orderly key value e s q :
  orderly s -> internal_map_ s !! key = None ->
  pq_push (ItemCompare (inserted clock key value e s))
    (expired_queue_ s) (next_item s) = Ok q ->
  orderly (set_queue q (inserted clock key value e s)).
Proof.
  intros (Hwf & Hcov & [Hnodup Hlive] & Hheap) Hnew Hq.
  set (mid := inserted clock key value e s) in *.
  pose proof (pq_push_perm _ _ _ _ Hq) as Hperm.
  destruct (pushed_wf key value e s q Hwf Hcov Hperm) as [Hwf' Hcov'].
  assert (forall p, p ∈ expired_queue_ s -> lock mid p = lock s p) as Hsame.
  { intros p Hp. unfold lock, mid. rewrite inserted_items by done.
    pose proof (wf_queue_fresh s Hwf p Hp).
    rewrite decide_False by lia. by rewrite decide_False by congruence. }
  assert (is_Some (lock mid (next_item s))) as Hnext.
  { unfold lock, mid. rewrite inserted_items, decide_True by done. eauto. }
  split_orderly; [done|done| |].
  - split; members.
    + rewrite Hperm. apply NoDup_cons. split; [|done].
      intros Hin. pose proof (wf_queue_fresh s Hwf _ Hin). lia.
    + intros p Hp. rewrite Hperm in Hp.
      apply elem_of_cons in Hp as [->|Hp]; [done|].
      change (is_Some (lock mid p)). rewrite Hsame by done. by apply Hlive.
  - unfold horizon_sorted. members.
    change (expire_at (set_queue q mid)) with (expire_at mid).
    eapply (pq_push_ordered (ItemCompare mid) (expire_at mid)
              (fun p => is_Some (lock mid p))); [| | | |exact Hq].
    + apply ItemCompare_prio.
    + done.
    + intros p Hp. rewrite Hsame by done. by apply Hlive.
    + eapply heap_ordered_ext; [|exact Hheap].
      intros p Hp. unfold expire_at. by rewrite Hsame.
Qed.

(** What [get] returns, read off the entry of the key. *)
Lemma get_value key s :
  wf s ->
  exists s1,
    get V_default clock key s =
    Ok (match entry s key with
        | Some it =>
            if bool_decide (expire_ it > clock (clock_reads s))
            then value_ it else V_default
        | None => V_default
        end, s1) /\
    (s1 = s \/ s1 = (current_time clock s).2).
Proof.
  intros Hwf. unfold get, entry.
  destruct (internal_map_ s !! key) as [p|] eqn:Hk; simpl; [|eauto].
  destruct (wf_owned s Hwf key p Hk) as (it & Hit & _).
  rewrite (proj2 (deref_Ok s p it) Hit), Hit. simpl. eauto.
Qed.

Lemma put_get_back key value ms s s' :
  wf s -> horizon_covers s ->
  put clock key value ms s = Ok s' ->
  (forall n, (clock_reads s <= n)%nat ->
     clock n < clock (clock_reads s) + ms) ->
  get V_default clock key s' = Ok (value, (current_time clock s').2).
Proof.
  intros Hwf Hcov Hput Hlive.
  pose proof (put_keeps key value ms s s' Hwf Hcov Hput Hlive)
    as (p & Hk & Hit)%entry_Some.
  pose proof (put_reads key value ms s s' Hput) as Hreads.
  unfold get. rewrite Hk, (proj2 (deref_Ok s' p _) Hit). simpl.
  specialize (Hlive (clock_reads s') ltac:(lia)).
  by rewrite bool_decide_eq_true_2 by lia.
Qed.

(** X1. What [put] stores, [get] reads back: when [put key value ms]
    completes and the expiration time it sets is later than every clock
    reading from the [put] on, [get key] returns [value].  The key may have
    been in the store before or not. *)
Theorem put_then_get key value ms s s' :
  wf s -> horizon_covers s ->
  put clock key value ms s = Ok s' ->
  (forall n, (clock_reads s <= n)%nat ->
     clock n < clock (clock_reads s) + ms) ->
  get V_default clock key s' = Ok (value, (current_time clock s').2).
Proof. apply put_get_back. Qed.

(** X2. [put] leaves the other keys alone: under another key the store
    holds nothing afterwards that it did not hold before, and an entry that
    is later than every clock reading from the [put] on is still there. *)
Theorem put_frame key value ms s s' k :
  wf s -> horizon_covers s ->
  put clock key value ms s = Ok s' ->
  k ≠ key ->
  (forall it, entry s' k = Some it -> entry s k = Some it) /\
  (forall it, entry s k = Some it ->
     (forall n, (clock_reads s <= n)%nat -> expire_ it > clock n) ->
     entry s' k = Some it).
Proof.
  intros Hwf Hcov (Hlong & q & Hq%pq_push_perm & Hloop)%put_Ok Hne.
  set (mid := inserted clock key value (clock (clock_reads s) + ms) s) in *.
  destruct (pushed_wf key value (clock (clock_reads s) + ms) s q Hwf Hcov Hq)
    as [Hwf' Hcov'].
  assert (forall p it, internal_map_ s !! k = Some p ->
            (items mid !! p = Some it <-> items s !! p = Some it)) as Hitems.
  { intros p it Hk. unfold mid. rewrite inserted_items by done.
    destruct (wf_owned s Hwf k p Hk) as (it' & Hit' & Hkey).
    pose proof (wf_items_fresh s Hwf p ltac:(eauto)).
    rewrite decide_False by lia. rewrite decide_False; [done|].
    intros Hold. destruct (wf_owned s Hwf key p Hold) as (? & ? & ?).
    congruence. }
  assert (internal_map_ mid !! k = internal_map_ s !! k) as Hmap.
  { unfold mid. by rewrite inserted_map, lookup_insert_ne. }
  split.
  - intros it (p & Hk & Hit)%entry_Some.
    pose proof (clearExpired_loop_mono _ _ _ Hloop) as (Hm & Hi & _ & _).
    members.
    eapply lookup_weaken in Hk; [|exact Hm].
    eapply lookup_weaken in Hit; [|exact Hi].
    rewrite Hmap in Hk. apply entry_Some. exists p. split; [done|].
    by apply (Hitems p it Hk).
  - intros it (p & Hk & Hit)%entry_Some Hlive. apply entry_Some. exists p.
    eapply clearExpired_loop_keeps; [exact Hwf'|exact Hcov'|exact Hloop| | |].
    + members. fold mid. by rewrite Hmap.
    + members. fold mid. by apply (Hitems p it Hk).
    + members. rewrite inserted_reads. intros n Hn.
      apply Hlive. lia.
Qed.

(** The top of a horizon in order is the reference that expires first. *)
Lemma orderly_top_soonest s w rest p :
  orderly s -> expired_queue_ s = w :: rest -> p ∈ expired_queue_ s ->
  expire_at s w <= expire_at s p.
Proof.
  intros (_ & _ & _ & Hheap) Hq Hp.
  apply list_elem_of_lookup_1 in Hp as [j Hj].
  pose proof (heap_root_min _ _ _ Hheap j (lookup_lt_Some _ _ _ Hj)) as Hmin.
  unfold prio_at in Hmin. rewrite Hj, Hq in Hmin. done.
Qed.

(** X3. A container in order (well-formed, no stale or repeated reference
    in the horizon, the horizon a heap) takes a [put] of a new key: the call
    completes, the container is in order again, with the reference that
    expires first on top of the horizon, and [get] reads the value back as
    long as the clock stays before the expiration time. *)
Theorem put_new_key_in_order key value ms s :
  orderly s ->
  internal_map_ s !! key = None ->
  in_long (clock (clock_reads s) + ms) ->
  exists s',
    put clock key value ms s = Ok s' /\ orderly s' /\
    (forall w rest p, expired_queue_ s' = w :: rest ->
       p ∈ expired_queue_ s' -> expire_at s' w <= expire_at s' p) /\
    ((forall n, (clock_reads s <= n)%nat ->
        clock n < clock (clock_reads s) + ms) ->
     get V_default clock key s' = Ok (value, (current_time clock s').2)).
Proof.
  intros Hord Hnew Hlong.
  destruct (put_orderly key value ms s Hord Hnew Hlong) as (s' & Hput & Hord').
  exists s'. split_and!; [done|done| |].
  - intros w rest p. by apply orderly_top_soonest.
  - destruct Hord as (Hwf & Hcov & _). by apply put_get_back.
Qed.

Lemma put_leaves_live (now : Z) key value ms s :
  orderly s -> (forall n, clock n = now) ->
  internal_map_ s !! key = None ->
  in_long (now + ms) ->
  exists s',
    put clock key value ms s = Ok s' /\
    (forall k it, entry s' k = Some it -> expire_ it > now) /\
    (ms <= 0 -> entry s' key = None) /\
    (0 < ms -> entry s' key = Some (mkItem key value (now + ms))).
Proof.
  intros Hord Hclock Hnew Hlong.
  pose proof Hord as (Hwf & Hcov & Htidy & _).
  rewrite <-(Hclock (clock_reads s)) in Hlong.
  destruct (put_orderly key value ms s Hord Hnew Hlong) as (s' & Hput & _).
  exists s'. split; [done|].
  pose proof Hput as (_ & q & Hq & Hloop)%put_Ok.
  pose proof (pushed_orderly key value _ s q Hord Hnew Hq) as Hord'.
  pose proof (clearExpired_loop_live now _ _ s' Hclock Hord' Hloop) as Hlive.
  split_and!; [done| |].
  - intros Hms. destruct (entry s' key) as [it|] eqn:Hentry; [|done].
    pose proof (Hlive key it Hentry) as Hlater.
    rewrite (put_entry key value ms s s' it Hwf Hcov Hput Hentry) in Hlater.
    simpl in Hlater. rewrite Hclock in Hlater. lia.
  - intros Hms. rewrite <-(Hclock (clock_reads s)).
    apply put_keeps; [done..|]. intros n _. rewrite !Hclock. lia.
Qed.


(** X5. [size] is the number of [keys]: on a container in order, at a
    clock that stands still, [size] completes, leaves the container in order
    and returns the number of keys that [keys] returns then. *)
Theorem size_is_number_of_keys (now : Z) s :
  orderly s -> (forall n, clock n = now) ->
  exists n s' ks,
    size clock s = Ok (n, s') /\ orderly s' /\
    keys K_lt clock s' = Ok (ks, (current_time clock s').2) /\
    n = length ks.
Proof. apply size_counts_live. Qed.

(** X6. [size] only removes: the count it returns is the number of entries
    it leaves, never more than before; every entry it leaves was there
    before, unchanged; and an entry later than every clock reading from the
    call on is still there. *)
Theorem size_only_removes s n s' :
  wf s -> horizon_covers s ->
  size clock s = Ok (n, s') ->
  n = base.size (internal_map_ s') /\
  (n <= base.size (internal_map_ s))%nat /\
  (forall k it, entry s' k = Some it -> entry s k = Some it) /\
  (forall k it, entry s k = Some it ->
     (forall m, (clock_reads s <= m)%nat -> expire_ it > clock m) ->
     entry s' k = Some it).
Proof.
  intros Hwf Hcov. unfold size. intros (s1 & Hloop & [= <- <-])%bind_Ok.
  pose proof (clearExpired_loop_mono _ _ _ Hloop) as (Hm & Hi & _ & _).
  split_and!; [done|by apply map_subseteq_size| |].
  - intros k it (p & Hk & Hit)%entry_Some. apply entry_Some. exists p.
    split; eapply lookup_weaken; eauto.
  - intros k it (p & Hk & Hit)%entry_Some Hlive. apply entry_Some. exists p.
    by eapply clearExpired_loop_keeps.
Qed.

(** When nothing in the store is due, the loop of [clearExpired] stops at
    its first turn. *)
Lemma clearExpired_nothing_due fuel s :
  (0 < fuel)%nat -> wf s -> tidy s ->
  (forall k it, entry s k = Some it -> expire_ it > clock (clock_reads s)) ->
  exists s1,
    clearExpired_loop clock fuel s = Ok s1 /\
    expired_queue_ s1 = expired_queue_ s /\
    internal_map_ s1 = internal_map_ s /\ items s1 = items s /\
    next_item s1 = next_item s /\
    (clock_reads s <= clock_reads s1 <= S (clock_reads s))%nat.
Proof.
  intros Hfuel Hwf [_ Hlive] Hlater. destruct fuel as [|fuel]; [lia|].
  simpl. unfold clearExpired_step.
  destruct (expired_queue_ s) as [|w rest] eqn:Eq.
  { exists s. simpl. rewrite Eq. split_and!; (done || lia). }
  cbn [pq_empty]. change (pq_top (w :: rest)) with (Ok w). rewrite bind_Ok_l.
  destruct (Hlive w ltac:(by left)) as [it Hit]. rewrite Hit.
  cbn [current_time].
  assert (entry s (key_ it) = Some it) as Hentry.
  { apply entry_Some. exists w. split; [|done]. by apply (wf_alive s Hwf). }
  rewrite bool_decide_eq_true_2 by (by apply (Hlater (key_ it))).
  eexists. rewrite bind_Ok_l. split; [done|]. simpl. rewrite Eq.
  split_and!; (done || lia).
Qed.

Lemma size_counts_when_nothing_due s :
  wf s -> tidy s ->
  (forall k it, entry s k = Some it -> expire_ it > clock (clock_reads s)) ->
  exists s',
    size clock s = Ok (base.size (internal_map_ s), s') /\
    expired_queue_ s' = expired_queue_ s /\
    internal_map_ s' = internal_map_ s /\ items s' = items s.
Proof.
  intros Hwf Htidy Hlater.
  destruct (clearExpired_nothing_due (S (length (expired_queue_ s))) s)
    as (s1 & Hloop & Hq & Hm & Hi & _); [lia|done..|].
  exists s1. unfold size, clearExpired. rewrite Hloop, bind_Ok_l.
  by rewrite Hm.
Qed.

(** X7. When nothing in the store is due, [size] just counts: it returns
    the number of entries of the store and leaves horizon, store and entries
    as they are. *)
Theorem size_when_nothing_due s :
  wf s -> tidy s ->
  (forall k it, entry s k = Some it -> expire_ it > clock (clock_reads s)) ->
  exists s',
    size clock s = Ok (base.size (internal_map_ s), s') /\
    expired_queue_ s' = expired_queue_ s /\
    internal_map_ s' = internal_map_ s /\ items s' = items s.
Proof. apply size_counts_when_nothing_due. Qed.

(** X8. Calling [size] twice: on a container in order, at a clock that
    stands still, the second call returns the count of the first and changes
    neither horizon nor store. *)
Theorem size_twice (now : Z) s :
  orderly s -> (forall n, clock n = now) ->
  exists n s1 s2,
    size clock s = Ok (n, s1) /\ size clock s1 = Ok (n, s2) /\
    expired_queue_ s2 = expired_queue_ s1 /\
    internal_map_ s2 = internal_map_ s1 /\ items s2 = items s1.
Proof.
  intros Hord Hclock. pose proof Hord as (Hwf & Hcov & Htidy & _).
  destruct (clearExpired_loop_defined (S (length (expired_queue_ s))) s)
    as (s1 & Hloop & _); [lia|done..|].
  pose proof (clearExpired_loop_orderly _ s s1 Hord Hloop)
    as (Hwf1 & _ & Htidy1 & _).
  pose proof (clearExpired_loop_live now _ s s1 Hclock Hord Hloop) as Hlive.
  destruct (size_counts_when_nothing_due s1 Hwf1 Htidy1)
    as (s2 & Hsize & Hrest).
  { intros k it Hentry. rewrite Hclock. by eapply Hlive. }
  exists (base.size (internal_map_ s1)), s1, s2. split; [|done].
  unfold size, clearExpired. by rewrite Hloop.
Qed.

Lemma inserted_entry key value e s k :
  wf s ->
  entry (inserted clock key value e s) k =
  if decide (k = key) then Some (mkItem key value e) else entry s k.
Proof.
  intros Hwf. unfold entry. rewrite inserted_map. case_decide as Hk.
  - subst k. rewrite lookup_insert_eq. cbn [mbind option_bind].
    by rewrite inserted_items, decide_True.
  - rewrite lookup_insert_ne by done.
    destruct (internal_map_ s !! k) as [p|] eqn:Hp; [|done].
    cbn [mbind option_bind]. rewrite inserted_items by done.
    destruct (wf_owned s Hwf k p Hp) as (it & Hit & Hkey).
    pose proof (wf_items_fresh s Hwf p ltac:(eauto)).
    rewrite decide_False by lia. rewrite decide_False; [done|].
    intros Hold. destruct (wf_owned s Hwf key p Hold) as (? & ? & ?).
    congruence.
Qed.

(** X9. A new entry is counted once: on a container in order with nothing
    due, at a clock that stands still, a [put] of a new key with a positive
    duration makes the store one entry larger, and the [size] that follows
    returns that number. *)
Theorem put_counts_once (now : Z) key value ms s :
  orderly s -> (forall n, clock n = now) ->
  (forall k it, entry s k = Some it -> expire_ it > now) ->
  internal_map_ s !! key = None ->
  in_long (now + ms) -> 0 < ms ->
  exists s' s'',
    put clock key value ms s = Ok s' /\
    base.size (internal_map_ s') = S (base.size (internal_map_ s)) /\
    size clock s' = Ok (S (base.size (internal_map_ s)), s'').
Proof.
  intros Hord Hclock Hlater Hnew Hlong Hms.
  pose proof Hord as (Hwf & Hcov & Htidy & _).
  rewrite <-(Hclock (clock_reads s)) in Hlong.
  destruct (put_orderly key value ms s Hord Hnew Hlong) as (s' & Hput & Hord').
  pose proof Hput as (_ & q & Hq & Hloop)%put_Ok.
  pose proof (pushed_orderly key value _ s q Hord Hnew Hq)
    as (Hwfp & _ & Htidyp & _).
  assert (forall k it,
            entry (inserted clock key value (clock (clock_reads s) + ms) s) k
              = Some it -> expire_ it > now) as Hmid.
  { intros k it. rewrite inserted_entry by done. case_decide.
    - intros [= <-]. simpl. rewrite Hclock. lia.
    - apply Hlater. }
  unfold clearExpired in Hloop.
  match type of Hloop with clearExpired_loop _ ?f ?P = _ =>
    destruct (clearExpired_nothing_due f P)
      as (s1 & Hloop1 & Hq1 & Hm1 & Hi1 & _); [lia|done|done| |]
  end.
  { intros k it Hentry. rewrite Hclock. by apply (Hmid k it). }
  rewrite Hloop1 in Hloop.
  inversion Hloop; subst s1; clear Hloop. members.
  assert (base.size (internal_map_ s') = S (base.size (internal_map_ s)))
    as Hsize.
  { rewrite Hm1, inserted_map. by apply map_size_insert_None. }
  destruct Hord' as (Hwf' & _ & Htidy' & _).
  destruct (size_counts_when_nothing_due s' Hwf' Htidy')
    as (s'' & Hsize' & _).
  { intros k it Hentry. rewrite Hclock. apply (Hmid k it).
    unfold entry in *. by rewrite <-Hm1, <-Hi1. }
  exists s', s''. split_and!; [done|done|]. by rewrite <-Hsize.
Qed.

Lemma map_erase_entry_ne key s k :
  wf s -> k ≠ key -> entry (map_erase key s) k = entry s k.
Proof.
  intros Hwf Hne. unfold entry.
  rewrite map_erase_map, map_erase_items, lookup_delete_ne by done.
  destruct (internal_map_ s !! k) as [p|] eqn:Hk; [simpl|done].
  destruct (internal_map_ s !! key) as [old|] eqn:Hold; [|done].
  apply lookup_delete_ne. intros ->.
  destruct (wf_owned s Hwf k p Hk) as (it & Hit & Hkey).
  destruct (wf_owned s Hwf key p Hold) as (it' & Hit' & Hkey').
  congruence.
Qed.

(** X10. After [erase key], [get key] returns the default value and
    [keys] leaves the key out, whatever the clock reads; [get] on any other
    key returns what it returned before; and a second [erase key] changes
    nothing. *)
Theorem erase_then_get key s :
  wf s ->
  get V_default clock key (erase key s) = Ok (V_default, erase key s) /\
  (exists ks,
     keys K_lt clock (erase key s)
       = Ok (ks, (current_time clock (erase key s)).2) /\ key ∉ ks) /\
  (forall k, k ≠ key ->
     (r ← get V_default clock k (erase key s); Ok r.1)
     = (r ← get V_default clock k s; Ok r.1)) /\
  erase key (erase key s) = erase key s.
Proof.
  intros Hwf. pose proof (wf_map_erase key s Hwf) as Hwf'.
  unfold erase. split_and!.
  - unfold get. by rewrite map_erase_map, lookup_delete_eq.
  - destruct (keys_Ok (map_erase key s) Hwf') as (ks & Hks & Hmem & _).
    exists ks. split; [done|]. rewrite Hmem.
    intros (it & (p & Hk & _)%entry_Some & _).
    by rewrite map_erase_map, lookup_delete_eq in Hk.
  - intros k Hne.
    destruct (get_value k (map_erase key s) Hwf') as (s1 & -> & _).
    destruct (get_value k s Hwf) as (s2 & -> & _).
    by rewrite (map_erase_entry_ne key s k Hwf Hne), map_erase_reads.
  - unfold map_erase at 1. by rewrite map_erase_map, lookup_delete_eq.
Qed.

Lemma clear_loop_frame fuel : forall s s',
  clear_loop fuel s = Ok s' ->
  next_item s' = next_item s /\ clock_reads s' = clock_reads s.
Proof.
  induction fuel as [|fuel IH]; intros s s' Hloop; [done|].
  simpl in Hloop. destruct (pq_empty (expired_queue_ s)).
  - by inversion Hloop; subst.
  - apply bind_Ok in Hloop as (q & _ & Hloop). by apply IH in Hloop.
Qed.

Lemma clear_loop_defined fuel : forall s,
  (length (expired_queue_ s) < fuel)%nat ->
  (forall p, p ∈ expired_queue_ s -> is_Some (lock s p)) ->
  is_Ok (clear_loop fuel s).
Proof.
  induction fuel as [|fuel IH]; intros s Hfuel Hlive; [lia|]. simpl.
  destruct (expired_queue_ s) as [|w rest] eqn:Eq; [by eexists|].
  cbn [pq_empty].
  destruct (pq_pop_defined (ItemCompare s) (fun p => is_Some (lock s p))
              (ItemCompare_defined s) w rest) as [q Hq].
  { intros p Hp. apply Hlive. by right. }
  rewrite Hq, bind_Ok_l. apply pq_pop_perm in Hq. apply IH.
  - simpl. apply Permutation_length in Hq. simpl in Hfuel. lia.
  - intros p Hp. simpl in Hp. rewrite Hq in Hp.
    change (is_Some (lock s p)). apply Hlive. by right.
Qed.

(** X11. [clear] empties: when it completes, horizon and store are empty and
    no item is alive, so [get] returns the default value for every key; the
    allocator and the clock are where they were.  It completes whenever no
    reference in the horizon is stale. *)
Theorem clear_empties s :
  ((forall p, p ∈ expired_queue_ s -> is_Some (lock s p)) ->
   is_Ok (clear s)) /\
  (forall s', clear s = Ok s' ->
     expired_queue_ s' = [] /\ internal_map_ s' = ∅ /\ items s' = ∅ /\
     next_item s' = next_item s /\ clock_reads s' = clock_reads s /\
     forall k, get V_default clock k s' = Ok (V_default, s')).
Proof.
  split.
  - intros Hlive. unfold clear.
    destruct (clear_loop_defined (S (length (expired_queue_ s))) s)
      as [s1 ->]; [lia|done|]. by eexists.
  - unfold clear. intros s' (s1 & Hloop & [= <-])%bind_Ok. simpl.
    pose proof (clear_loop_Ok _ _ _ Hloop) as Hq.
    pose proof (clear_loop_frame _ _ _ Hloop) as [Hn Hr].
    split_and!; [done..|].
    intros k. unfold get. simpl. by rewrite lookup_empty.
Qed.

(** X12. What [left] returns is a number from 0 up to, not including,
    2^32: zero for a key that is not in the store, and for a key that is, the
    time left reduced modulo 2^32, which is the time left itself when that is
    at least zero and less than 2^32. *)
Theorem left_in_range key s d s' :
  left clock key s = Ok (d, s') ->
  0 <= d < 2 ^ 32 /\
  (entry s key = None -> d = 0) /\
  (forall it, entry s key = Some it ->
     d = (expire_ it - clock (clock_reads s)) mod 2 ^ 32 /\
     (0 <= expire_ it - clock (clock_reads s) < 2 ^ 32 ->
      d = expire_ it - clock (clock_reads s))).
Proof.
  unfold left, entry, long_sub, to_unsigned.
  destruct (internal_map_ s !! key) as [p|]; simpl.
  - unfold deref. destruct (items s !! p) as [it|]; [simpl|intros [=]].
    case_decide; simpl; [|intros [=]]. intros [= <- _].
    split; [by apply Z.mod_pos_bound|split; [intros [=]|]].
    intros ? [= <-]. split; [done|]. intros Hrange.
    by apply Z.mod_small.
  - intros [= <- _]. split; [done|split; [done|]]. by intros it.
Qed.

(** X13. [keys] and [get] agree at one clock reading: for every key that
    [keys] returns, [get] returns the value of its entry, and for every key
    that [keys] leaves out, [get] returns the default value. *)
Theorem keys_agree_with_get s :
  wf s ->
  exists ks,
    keys K_lt clock s = Ok (ks, (current_time clock s).2) /\
    forall k,
      (k ∈ ks ->
       exists it, entry s k = Some it /\
         get V_default clock k s = Ok (value_ it, (current_time clock s).2)) /\
      (k ∉ ks -> exists s1, get V_default clock k s = Ok (V_default, s1)).
Proof.
  intros Hwf. destruct (keys_Ok s Hwf) as (ks & Hks & Hmem & _).
  exists ks. split; [done|]. intros k. split.
  - intros (it & Hentry & Hlive)%Hmem. exists it. split; [done|].
    apply entry_Some in Hentry as (p & Hk & Hit).
    unfold get. rewrite Hk, (proj2 (deref_Ok s p it) Hit). simpl.
    by rewrite bool_decide_eq_true_2.
  - intros Hout. destruct (get_value k s Hwf) as (s1 & Hget & _).
    exists s1. rewrite Hget. destruct (entry s k) as [it|] eqn:Hentry; [|done].
    case_bool_decide as Hlive; [|done].
    destruct Hout. apply Hmem. eauto.
Qed.

(** X14. A stale reference on top of the horizon is thrown away: the turn
    of [clearExpired] that finds it does not read the clock and leaves store
    and entries as they are; what is left of the horizon are the other
    references.  The turn completes whenever those others are not stale. *)
Theorem stale_top_discarded s w rest :
  expired_queue_ s = w :: rest -> lock s w = None ->
  ((forall p, p ∈ rest -> is_Some (lock s p)) ->
   is_Ok (clearExpired_step clock s)) /\
  (forall t, clearExpired_step clock s = Ok t ->
     exists q, t = Continue (set_queue q s) /\ q ≡ₚ rest).
Proof.
  intros Hq Hstale. unfold clearExpired_step. rewrite Hq.
  cbn [pq_empty]. change (pq_top (w :: rest)) with (Ok w).
  rewrite bind_Ok_l, Hstale. split.
  - intros Hlive.
    destruct (pq_pop_defined (ItemCompare s) (fun p => is_Some (lock s p))
                (ItemCompare_defined s) w rest Hlive) as [q ->].
    by eexists.
  - intros t (q & Hpop & [= <-])%bind_Ok. exists q. split; [done|].
    by eapply pq_pop_perm.
Qed.

(** X15. Every operation is safe on an empty container (empty horizon,
    empty store): [get] returns the default value and [left] zero, [keys]
    returns no key and [size] zero, [erase] and [clear] change nothing, and
    [put] completes unless the expiration time overflows. *)
Theorem empty_container_safe s :
  wf s -> expired_queue_ s = [] -> internal_map_ s = ∅ ->
  (forall k,
     get V_default clock k s = Ok (V_default, s) /\
     left clock k s = Ok (0, s) /\
     erase k s = s) /\
  keys K_lt clock s = Ok ([], (current_time clock s).2) /\
  size clock s = Ok (0%nat, s) /\
  clear s = Ok s /\
  (forall k v ms, in_long (clock (clock_reads s) + ms) ->
     is_Ok (put clock k v ms s)).
Proof.
  intros Hwf Hq Hm.
  assert (items s = ∅) as Hi.
  { apply map_empty. intros p. destruct (items s !! p) as [it|] eqn:Hit; [|done].
    pose proof (wf_alive s Hwf p it Hit) as Hk.
    by rewrite Hm, lookup_empty in Hk. }
  split_and!.
  - intros k. unfold get, left, erase, map_erase.
    by rewrite Hm, lookup_empty.
  - rewrite keys_unfold. simpl. by rewrite Hm, map_to_list_empty.
  - unfold size, clearExpired. simpl. unfold clearExpired_step.
    rewrite Hq. simpl. by rewrite Hm, map_size_empty.
  - unfold clear. simpl. rewrite Hq. simpl.
    destruct s; simpl in *. by subst.
  - intros k v ms Hlong.
    destruct (put_orderly k v ms s) as (s' & -> & _); [|by rewrite Hm|done|
      by eexists].
    split_orderly; [done| | |].
    + intros k' p. by rewrite Hm, lookup_empty.
    + unfold tidy. rewrite Hq. split; [constructor|].
      intros p Hp. by apply elem_of_nil in Hp.
    + intros j Hj. rewrite Hq in Hj. simpl in Hj. lia.
Qed.

(** X16. [erase] leaves the horizon behind: the reference of the entry it
    removes stays in the horizon and is stale from then on. *)
Theorem erase_leaves_stale key s p :
  wf s -> horizon_covers s ->
  internal_map_ s !! key = Some p ->
  p ∈ expired_queue_ (erase key s) /\ lock (erase key s) p = None /\
  length (expired_queue_ (erase key s)) = length (expired_queue_ s).
Proof.
  intros Hwf Hcov Hk. unfold erase, lock.
  rewrite map_erase_queue, map_erase_items, Hk.
  split_and!; [by eapply Hcov|apply lookup_delete_eq|done].
Qed.

End ExpiringMap_facts.

(** ** The claims on the container of the test program *)

Open Scope string_scope.

Lemma str_lt_trans a b c :
  str_lt a b = true -> str_lt b c = true -> str_lt a c = true.
Proof.
  unfold str_lt. intros Hab Hbc.
  destruct (OrdersEx.String_as_OT.compare a b) eqn:Eab; try done.
  destruct (OrdersEx.String_as_OT.compare b c) eqn:Ebc; try done.
  pose proof (StrictOrder_Transitive (R := OrdersEx.String_as_OT.lt) a b c
                Eab Ebc) as Hac.
  unfold OrdersEx.String_as_OT.lt in Hac. by rewrite Hac.
Qed.

Lemma str_lt_total a b : a ≠ b -> str_lt a b = true \/ str_lt b a = true.
Proof.
  unfold str_lt. intros Hne.
  destruct (OrdersEx.String_as_OT.compare_spec a b) as [Heq|Hlt|Hgt].
  - done.
  - by left.
  - right. unfold OrdersEx.String_as_OT.lt in Hgt. by rewrite Hgt.
Qed.

Lemma covers_empty_map : horizon_covers (empty_map : ExpMap).
Proof. intros k p. simpl. by rewrite lookup_empty. Qed.

Lemma hello_wf : wf hello /\ horizon_covers hello.
Proof.
  apply (put_wf (later 2 150) "hello" 1 100 empty_map);
    [apply wf_empty_map|apply covers_empty_map|]. vm_compute; reflexivity.
Qed.

Lemma hello_world_wf : wf hello_world /\ horizon_covers hello_world.
Proof.
  pose proof (put_wf (steady 0) "hello" 1 500 empty_map
    (state_of (put (steady 0) "hello" 1 500 empty_map))
    wf_empty_map covers_empty_map ltac:(vm_compute; reflexivity)) as [Hwf Hcov].
  apply (put_wf (steady 0) "world" 2 100 _ hello_world Hwf Hcov).
  vm_compute; reflexivity.
Qed.

Lemma beside_wf : wf beside /\ horizon_covers beside.
Proof.
  apply (put_wf (steady 0) "a" 1 1000 empty_map);
    [apply wf_empty_map|apply covers_empty_map|]. vm_compute; reflexivity.
Qed.

(** What [left] computes (not a claim of its own; see C1 below). *)
Lemma left_present (clock : nat -> Z) (s : ExpMap) key p it :
  internal_map_ s !! key = Some p -> items s !! p = Some it ->
  in_long (expire_ it - clock (clock_reads s)) ->
  left clock key s =
  Ok ((expire_ it - clock (clock_reads s)) mod 2 ^ 32, (current_time clock s).2).
Proof.
  intros Hk Hit Hlong. unfold left, long_sub, to_unsigned.
  rewrite Hk, (proj2 (deref_Ok s p it) Hit). simpl.
  by rewrite decide_True by done.
Qed.

Lemma left_absent (clock : nat -> Z) (s : ExpMap) key :
  internal_map_ s !! key = None -> left clock key s = Ok (0, s).
Proof. intros Hk. unfold left. by rewrite Hk. Qed.

(** C1. [left] is to return [expire_at - now()] for a key in the store.
    It returns that number reduced modulo 2^32: for the entry of ["hello"],
    which expired 50 ms ago, 4294967246 and not -50; for an entry put with
    4294967301 ms to live, 5 at once. *)
Theorem left_wraps_to_unsigned :
  (r ← left (later 2 150) "hello" hello; Ok r.1) = Ok 4294967246 /\
  entry hello "hello" = Some (mkItem "hello" 1 100) /\
  later 2 150 (clock_reads hello) = 150 /\
  (s ← put (steady 0) "hello" 1 4294967301 empty_map;
   r ← left (steady 0) "hello" s; Ok r.1) = Ok 5.
Proof. vm_compute. repeat split. Qed.

(** C2. The comparator of the horizon dereferences what [lock()] returns
    without looking at it: on a reference whose entry was overwritten the
    comparison is undefined, and with it the [put] that pushes onto such a
    horizon, in the overwrite scenario of the specification and in the third
    [put] of the test program. *)
Theorem comparator_dereferences_stale :
  overwrite_run = Undefined /\
  test_program_run = Undefined /\
  ItemCompare (erase "hello" hello_world) 0%nat 1%nat = Undefined.
Proof. vm_compute. repeat split. Qed.

(** C5. On a container in order [size] counts what [keys] returns
    ([size_counts_live]).  With a stale reference inside the horizon it does
    not return: popping the due entry of ["a"] compares the stale reference
    of ["b"].  At that instant [keys] returns the one key that is live. *)
Theorem size_undefined_on_stale :
  size (later 6 150) erased = Undefined /\
  (r ← keys str_lt (later 6 150) erased; Ok r.1) = Ok ["c"] /\
  expired_queue_ erased = [0%nat; 1%nat; 2%nat] /\
  lock erased 1%nat = None.
Proof. vm_compute. repeat split. Qed.

Lemma get_expired_like_absent_witness :
  exists s1 s2,
    get 0 (later 2 150) "hello" hello = Ok (0, s1) /\
    get 0 (later 2 150) "world" hello = Ok (0, s2).
Proof.
  destruct (get_expired_like_absent 0 (later 2 150) hello "hello" "world"
              0%nat (mkItem "hello" 1 100))
    as (s1 & s2 & H1 & H2 & _);
    [vm_compute; reflexivity|vm_compute; reflexivity
    |vm_compute; discriminate|vm_compute; reflexivity|].
  exists s1, s2. split; [exact H1|exact H2].
Defined.

Lemma keys_live_sorted_witness :
  exists ks,
    keys str_lt (steady 0) hello_world
      = Ok (ks, (current_time (steady 0) hello_world).2) /\
    StronglySorted (key_before str_lt hello_world) ks.
Proof.
  destruct (keys_live_sorted str_lt (steady 0) hello_world
              (proj1 hello_world_wf) str_lt_trans str_lt_total)
    as (ks & Hks & _ & _ & Hsorted).
  exists ks. split; [exact Hks|exact Hsorted].
Defined.

Lemma erase_frame_witness :
  entry (erase "hello" hello_world) "hello" = None /\
  expired_queue_ (erase "hello" hello_world) = expired_queue_ hello_world.
Proof.
  destruct (erase_frame "hello" hello_world (proj1 hello_world_wf))
    as (_ & Hgone & _ & Hqueue & _).
  split; [exact Hgone|exact Hqueue].
Defined.

Lemma horizon_never_fewer_witness :
  horizon_covers (state_of (run str_lt 0 (steady 0) (Erase "hello") hello_world)).
Proof.
  destruct (horizon_never_fewer str_lt 0 (steady 0) (Erase "hello") hello_world
              (proj1 hello_world_wf) (proj2 hello_world_wf)) as [_ Hinv].
  destruct (Hinv (state_of (run str_lt 0 (steady 0) (Erase "hello") hello_world)))
    as (_ & Hcov & _); [vm_compute; reflexivity|exact Hcov].
Defined.

Lemma expiry_boundary_exclusive_witness :
  exists s2, get 0 (steady 0) "x"
    (state_of (put (steady 0) "x" 10 0 hello_world)) = Ok (0, s2).
Proof.
  destruct (expiry_boundary_exclusive str_lt 0 (steady 0) hello_world
              (proj1 hello_world_wf) (proj2 hello_world_wf)) as [_ Hput].
  destruct (Hput "x" 10) as (_ & _ & Hafter).
  destruct (Hafter (state_of (put (steady 0) "x" 10 0 hello_world)))
    as [Hget _]; [vm_compute; reflexivity|vm_compute; discriminate|exact Hget].
Defined.

(** C6 as stated fails where the second duration is zero: both calls
    complete, and the store has no entry for the key; [size] counts none. *)
Lemma overwrite_zero_ttl_leaves_nothing :
  exists s1 s2 : ExpMap,
    put (steady 0) "x" 10 0 empty_map = Ok s1 /\
    put (steady 0) "x" 20 0 s1 = Ok s2 /\
    entry s2 "x" = None /\
    (r ← size (steady 0) s2; Ok r.1) = Ok 0%nat.
Proof.
  exists (state_of (put (steady 0) "x" 10 0 empty_map)).
  exists (state_of (s ← put (steady 0) "x" 10 0 empty_map;
                    put (steady 0) "x" 20 0 s)).
  vm_compute. repeat split.
Qed.

Lemma overwrite_keeps_last_witness :
  entry beside_second "x" = Some (mkItem "x" 20 3000).
Proof.
  destruct (overwrite_keeps_last (steady 0) "x" 10 20 2000 3000
              beside beside_first beside_second
              (proj1 beside_wf) (proj2 beside_wf))
    as (Hentry & _);
    [vm_compute; reflexivity|vm_compute; reflexivity| |exact Hentry].
  intros n _. unfold steady. lia.
Defined.

(** ** The further properties on the container of the test program *)

Lemma hello_first_orderly :
  orderly (state_of (put (steady 0) "hello" 1 500 empty_map)).
Proof.
  destruct (put_orderly (steady 0) "hello" 1 500 empty_map orderly_empty_map)
    as (s' & Hput & Hord); [vm_compute; reflexivity|vm_compute; by split|].
  replace (put (steady 0) "hello" 1 500 empty_map)
    with (Ok (state_of (put (steady 0) "hello" 1 500 empty_map))) in Hput
    by (vm_compute; reflexivity).
  by inversion Hput; subst s'.
Qed.

Lemma hello_world_put :
  put (steady 0) "world" 2 100
    (state_of (put (steady 0) "hello" 1 500 empty_map)) = Ok hello_world.
Proof. vm_compute; reflexivity. Qed.

Lemma hello_world_orderly : orderly hello_world.
Proof.
  destruct (put_orderly (steady 0) "world" 2 100 _ hello_first_orderly)
    as (s' & Hput & Hord); [vm_compute; reflexivity|vm_compute; by split|].
  rewrite hello_world_put in Hput. by inversion Hput; subst s'.
Qed.

Lemma hello_world_live k it :
  entry hello_world k = Some it -> expire_ it > 0.
Proof.
  destruct (put_leaves_live (steady 0) 0 "world" 2 100 _ hello_first_orderly)
    as (s' & Hput & Hlive & _);
    [done|vm_compute; reflexivity|vm_compute; by split|].
  rewrite hello_world_put in Hput. inversion Hput; subst s'. apply Hlive.
Qed.

Lemma put_then_get_witness :
  get 0 (steady 0) "world" hello_world
  = Ok (2, (current_time (steady 0) hello_world).2).
Proof.
  apply (put_then_get 0 (steady 0) "world" 2 100
           (state_of (put (steady 0) "hello" 1 500 empty_map)));
    [apply hello_first_orderly|apply hello_first_orderly|apply hello_world_put|].
  intros n _. unfold steady. lia.
Defined.

Lemma put_frame_witness :
  entry hello_world "hello" = Some (mkItem "hello" 1 500).
Proof.
  destruct (put_frame (steady 0) "world" 2 100
              (state_of (put (steady 0) "hello" 1 500 empty_map))
              hello_world "hello")
    as [_ Hkept];
    [apply hello_first_orderly|apply hello_first_orderly|apply hello_world_put
    |discriminate|].
  apply Hkept; [vm_compute; reflexivity|].
  intros n _. unfold steady. simpl. lia.
Defined.

Lemma put_new_key_in_order_witness :
  exists s', put (steady 0) "x" 10 1000 hello_world = Ok s' /\ orderly s'.
Proof.
  destruct (put_new_key_in_order 0 (steady 0) "x" 10 1000 hello_world
              hello_world_orderly)
    as (s' & Hput & Hord & _);
    [vm_compute; reflexivity|vm_compute; by split|].
  exists s'. split; [exact Hput|exact Hord].
Defined.


Lemma size_is_number_of_keys_witness :
  exists n s' ks,
    size (steady 0) hello_world = Ok (n, s') /\
    keys str_lt (steady 0) s' = Ok (ks, (current_time (steady 0) s').2) /\
    n = length ks.
Proof.
  destruct (size_is_number_of_keys str_lt (steady 0) 0 hello_world
              hello_world_orderly)
    as (n & s' & ks & Hsize & _ & Hkeys & Hn); [reflexivity|].
  exists n, s', ks. split; [exact Hsize|]. split; [exact Hkeys|exact Hn].
Defined.

Lemma size_only_removes_witness :
  entry (state_of (r ← size (steady 0) hello_world; Ok r.2)) "hello"
  = Some (mkItem "hello" 1 500).
Proof.
  destruct (size_only_removes (steady 0) hello_world 2%nat
              (state_of (r ← size (steady 0) hello_world; Ok r.2)))
    as (_ & _ & _ & Hkept);
    [apply hello_world_orderly|apply hello_world_orderly
    |vm_compute; reflexivity|].
  apply Hkept; [vm_compute; reflexivity|].
  intros m _. unfold steady. simpl. lia.
Defined.

Lemma size_when_nothing_due_witness :
  exists s', size (steady 0) hello_world = Ok (2%nat, s').
Proof.
  destruct (size_when_nothing_due (steady 0) hello_world)
    as (s' & Hsize & _);
    [apply hello_world_orderly|apply hello_world_orderly| |].
  - intros k it. unfold steady. apply hello_world_live.
  - exists s'. exact Hsize.
Defined.

Lemma size_twice_witness :
  exists n s1 s2,
    size (steady 0) hello_world = Ok (n, s1) /\
    size (steady 0) s1 = Ok (n, s2).
Proof.
  destruct (size_twice (steady 0) 0 hello_world hello_world_orderly)
    as (n & s1 & s2 & H1 & H2 & _); [reflexivity|].
  exists n, s1, s2. split; [exact H1|exact H2].
Defined.

Lemma put_counts_once_witness :
  exists s' s'',
    put (steady 0) "x" 10 1000 hello_world = Ok s' /\
    size (steady 0) s' = Ok (3%nat, s'').
Proof.
  destruct (put_counts_once (steady 0) 0 "x" 10 1000 hello_world
              hello_world_orderly)
    as (s' & s'' & Hput & _ & Hsize);
    [reflexivity|apply hello_world_live|vm_compute; reflexivity
    |vm_compute; by split|lia|].
  exists s', s''. split; [exact Hput|exact Hsize].
Defined.

Lemma erase_then_get_witness :
  get 0 (steady 0) "hello" (erase "hello" hello_world)
  = Ok (0, erase "hello" hello_world).
Proof.
  destruct (erase_then_get str_lt 0 (steady 0) "hello" hello_world
              (proj1 hello_world_wf)) as (Hget & _).
  exact Hget.
Defined.

Lemma left_in_range_witness :
  left (steady 0) "hello" hello_world
  = Ok (500, (current_time (steady 0) hello_world).2) /\
  0 <= 500 < 2 ^ 32.
Proof.
  split; [vm_compute; reflexivity|].
  destruct (left_in_range (steady 0) "hello" hello_world 500
              (current_time (steady 0) hello_world).2) as [Hrange _];
    [vm_compute; reflexivity|exact Hrange].
Defined.

Lemma keys_agree_with_get_witness :
  exists ks,
    keys str_lt (steady 0) hello_world
    = Ok (ks, (current_time (steady 0) hello_world).2).
Proof.
  destruct (keys_agree_with_get str_lt 0 (steady 0) hello_world
              (proj1 hello_world_wf)) as (ks & Hks & _).
  exists ks. exact Hks.
Defined.

Lemma stale_top_discarded_witness :
  is_Ok (clearExpired_step (steady 0) (erase "world" hello_world)).
Proof.
  destruct (stale_top_discarded (steady 0) (erase "world" hello_world)
              1%nat [0%nat]) as [Hok _];
    [vm_compute; reflexivity|vm_compute; reflexivity|].
  apply Hok. intros p Hp. apply list_elem_of_singleton in Hp. subst p.
  vm_compute. eauto.
Defined.

Lemma empty_container_safe_witness :
  size (steady 0) (empty_map : ExpMap) = Ok (0%nat, empty_map).
Proof.
  destruct (empty_container_safe str_lt 0 (steady 0) (empty_map : ExpMap))
    as (_ & _ & Hsize & _); [apply wf_empty_map|reflexivity|reflexivity|].
  exact Hsize.
Defined.

Lemma erase_leaves_stale_witness :
  lock (erase "world" hello_world) 1%nat = None.
Proof.
  destruct (erase_leaves_stale "world" hello_world 1%nat)
    as (_ & Hstale & _);
    [apply hello_world_wf|apply hello_world_wf|vm_compute; reflexivity|].
  exact Hstale.
Defined.
